(** * The pairwise dispatch engine of [torch/distributions/kl.py]

    A shallow embedding of the registration decorator [register_kl], the
    specificity comparison of [_Match], the resolver [_dispatch_kl] and the
    facade [kl_divergence], together with the properties of the engine. *)

From stdpp Require Import base option list gmap strings.

Local Open Scope string_scope.
Local Open Scope list_scope.

(** ** Python exceptions and results *)

(** The exceptions that the modelled code paths can raise.  [TypeError]
    carries its message, [NotImplementedError] the argument tuple it was
    constructed with (a bare [raise NotImplementedError] has none). *)
Inductive exn : Type :=
| TypeError (msg : string)
| KeyError
| ValueError
| NotImplementedError (args : list string).

(** The arguments an exception was constructed with, and what it means for
    an exception to name something: one of its arguments contains the name. *)
Definition exn_args (e : exn) : list string :=
  match e with
  | TypeError msg => [msg]
  | NotImplementedError args => args
  | KeyError | ValueError => []
  end.

Definition contains (msg name : string) : Prop :=
  ∃ pre post, msg = pre +:+ name +:+ post.

Definition exn_names (e : exn) (name : string) : Prop :=
  ∃ a, a ∈ exn_args e ∧ contains a name.

Inductive res (A : Type) : Type :=
| Ok (a : A)
| Raise (e : exn).
Arguments Ok {A} a.
Arguments Raise {A} e.

#[global] Instance res_ret : MRet res := λ A a, Ok a.
#[global] Instance res_bind : MBind res := λ A B f m,
  match m with
  | Ok a => f a
  | Raise e => Raise e
  end.

(** ** Insertion-ordered dictionaries

    A Python [dict] iterates over its keys in insertion order, and assigning
    to an existing key keeps the key's position.  [min] over the keys of the
    registry depends on that order, hence an association list. *)
Section dict.
Context {K V : Type} `{EqDecision K}.

Fixpoint dict_get (d : list (K * V)) (k : K) : option V :=
  match d with
  | [] => None
  | (k', v) :: d' => if decide (k = k') then Some v else dict_get d' k
  end.

Fixpoint dict_set (d : list (K * V)) (k : K) (v : V) : list (K * V) :=
  match d with
  | [] => [(k, v)]
  | (k', v') :: d' =>
      if decide (k = k') then (k', v) :: d' else (k', v') :: dict_set d' k v
  end.

Definition dict_keys (d : list (K * V)) : list K := d.*1.

(** [d[k]], raising [KeyError] on a missing key. *)
Definition getitem (d : list (K * V)) (k : K) : res V :=
  match dict_get d k with
  | Some v => Ok v
  | None => Raise KeyError
  end.
End dict.

(** ** Warnings *)

Inductive warning_category : Type := RuntimeWarning.

Record warning : Type := Warning {
  w_message : string;
  w_category : warning_category
}.

(** ** The engine *)

Section engine.
(** Python classes, compared by identity; [issubclass] is the builtin. *)
Context {cls : Type} `{Countable cls}.
Variable issubclass : cls → cls → bool.
Variable Distribution : cls.
Variable __name__ : cls → string.

(** Registered functions, compared by identity ([is]). *)
Context {handler : Type} `{EqDecision handler}.

(** Distribution objects, their runtime type, and what calling a
    registered function on two of them returns. *)
Context {instance value : Type}.
Variable type : instance → cls.
Variable call : handler → instance → instance → value.

(** What [_KL_MEMOIZE] stores and [_dispatch_kl] returns: a registered
    function or the [NotImplemented] singleton. *)
Inductive pyfun : Type :=
| NotImplemented
| Fun (f : handler).

#[global] Instance pyfun_eq_dec : EqDecision pyfun.
Proof. solve_decision. Defined.

(** *** [_Match] *)

Record _Match : Type := Match_ { types : list cls }.

#[global] Instance _Match_eq_dec : EqDecision _Match.
Proof. solve_decision. Defined.

(** [__eq__]: tuple equality, elementwise class identity. *)
Definition _Match__eq__ (self other : _Match) : bool :=
  bool_decide (types self = types other).

(** The [for x, y in zip(...)] loop of [__le__]. *)
Fixpoint le_loop (zs : list (cls * cls)) : bool :=
  match zs with
  | [] => true
  | (x, y) :: zs' =>
      if negb (issubclass x y) then false
      else if negb (bool_decide (x = y)) then true
      else le_loop zs'
  end.

Definition _Match__le__ (self other : _Match) : bool :=
  le_loop (zip (types self) (types other)).

(** [__lt__] as [functools.total_ordering] derives it from [__le__]:
    [self <= other and not self == other]. *)
Definition _Match__lt__ (self other : _Match) : bool :=
  _Match__le__ self other && negb (_Match__eq__ self other).

(** The builtin [min]: keep the first item, replace it by every later item
    that is strictly smaller. *)
Definition min_step (cur item : _Match) : _Match :=
  if _Match__lt__ item cur then item else cur.

Definition py_min (l : list _Match) : res _Match :=
  match l with
  | [] => Raise ValueError
  | x :: xs => Ok (foldl min_step x xs)
  end.

(** Unpacking [a, b = m.types]. *)
Definition unpack2 (m : _Match) : res (cls * cls) :=
  match types m with
  | [a; b] => Ok (a, b)
  | _ => Raise ValueError
  end.

(** *** [_dispatch_kl] *)

Definition registry : Type := list (cls * cls * handler).

(** The list comprehension [matches]. *)
Definition matches (reg : registry) (type_p type_q : cls) : list (cls * cls) :=
  List.filter
    (λ m : cls * cls, issubclass type_p m.1 && issubclass type_q m.2)
    (dict_keys reg).

Definition ambiguity_message (type_p type_q left_p right_q : cls) : string :=
  "Ambiguous kl_divergence(" +:+ __name__ type_p +:+ ", " +:+ __name__ type_q
    +:+ "). Please register_kl(" +:+ __name__ left_p +:+ ", "
    +:+ __name__ right_q +:+ ")".

(** [min(_Match( *m) for m in matches).types] and its reversed twin. *)
Definition left_min (ms : list (cls * cls)) : res _Match :=
  py_min (map (λ m : cls * cls, Match_ [m.1; m.2]) ms).
Definition right_min (ms : list (cls * cls)) : res _Match :=
  py_min (map (λ m : cls * cls, Match_ [m.2; m.1]) ms).

(** Returns the resolved function together with the warnings emitted. *)
Definition _dispatch_kl (reg : registry) (type_p type_q : cls)
  : res (pyfun * list warning) :=
  let ms := matches reg type_p type_q in
  if bool_decide (ms = []) then Ok (NotImplemented, [])
  else
    '(left_p, left_q) ← left_min ms ≫= unpack2;
    '(right_q, right_p) ← right_min ms ≫= unpack2;
    left_fun ← getitem reg (left_p, left_q);
    right_fun ← getitem reg (right_p, right_q);
    if bool_decide (left_fun ≠ right_fun) then
      Ok (Fun left_fun,
          [Warning (ambiguity_message type_p type_q left_p right_q)
                   RuntimeWarning])
    else Ok (Fun left_fun, []).

(** *** The module state *)

Record engine : Type := Engine {
  _KL_REGISTRY : registry;
  _KL_MEMOIZE : gmap (cls * cls) pyfun
}.

(** *** [register_kl] *)

(** What a caller may pass as [type_p] or [type_q]: a class, or some other
    object (given by its [str]). *)
Inductive pyobj : Type :=
| PyType (c : cls)
| PyOther (str : string).

(** [isinstance(o, type)] *)
Definition isinstance_type (o : pyobj) : bool :=
  match o with
  | PyType _ => true
  | PyOther _ => false
  end.

(** The builtin [issubclass(o, c)], which rejects a first argument that is
    not a class. *)
Definition py_issubclass (o : pyobj) (c : cls) : res bool :=
  match o with
  | PyType x => Ok (issubclass x c)
  | PyOther _ => Raise (TypeError "issubclass() arg 1 must be a class")
  end.

Definition py_str (o : pyobj) : string :=
  match o with
  | PyType c => "<class '" +:+ __name__ c +:+ "'>"
  | PyOther s => s
  end.

(** One guard of [register_kl]:
    [if not isinstance(o, type) and issubclass(o, Distribution): raise ...],
    with [and] binding looser than [not] and evaluated left to right.
    It yields the class that the decorator closes over; an object that is
    not a class never gets past [py_issubclass]. *)
Definition register_guard (argname : string) (o : pyobj) : res cls :=
  c ← (if negb (isinstance_type o) then py_issubclass o Distribution
       else Ok false);
  if c : bool then
    Raise (TypeError ("Expected " +:+ argname
                      +:+ " to be a Distribution subclass but got "
                      +:+ py_str o))
  else
    match o with
    | PyType t => Ok t
    | PyOther _ => Raise (TypeError "issubclass() arg 1 must be a class")
    end.

(** The inner [decorator(fun)], closed over the two classes. *)
Definition decorator (type_p type_q : cls) (fn : handler) (s : engine)
  : handler * engine :=
  (fn, Engine (dict_set (_KL_REGISTRY s) (type_p, type_q) fn) ∅).

Definition register_kl (type_p type_q : pyobj)
  : res (handler → engine → handler * engine) :=
  tp ← register_guard "type_p" type_p;
  tq ← register_guard "type_q" type_q;
  Ok (decorator tp tq).

(** *** [kl_divergence] *)

(** The [try: ... except KeyError: ...] block: the function looked up, the
    state afterwards and the warnings emitted. *)
Definition memoized_lookup (s : engine) (type_p type_q : cls)
  : res (pyfun * engine * list warning) :=
  match _KL_MEMOIZE s !! (type_p, type_q) with
  | Some fn => Ok (fn, s, [])
  | None =>
      '(fn, ws) ← _dispatch_kl (_KL_REGISTRY s) type_p type_q;
      Ok (fn,
          Engine (_KL_REGISTRY s) (<[(type_p, type_q) := fn]> (_KL_MEMOIZE s)),
          ws)
  end.

(** The outcome of the call, the state afterwards, the warnings emitted. *)
Definition kl_divergence (p q : instance) (s : engine)
  : res value * engine * list warning :=
  match memoized_lookup s (type p) (type q) with
  | Raise e => (Raise e, s, [])
  | Ok (fn, s', ws) =>
      match fn with
      | NotImplemented => (Raise (NotImplementedError []), s', ws)
      | Fun f => (Ok (call f p q), s', ws)
      end
  end.

(** The facade fails with a [NotImplementedError] that names the classes of
    both arguments. *)
Definition fails_naming_types (p q : instance) (s : engine) : Prop :=
  ∃ args,
    (kl_divergence p q s).1.1 = Raise (NotImplementedError args) ∧
    exn_names (NotImplementedError args) (__name__ (type p)) ∧
    exn_names (NotImplementedError args) (__name__ (type q)).

(** *** What the cache promises

    Every entry of [_KL_MEMOIZE] is what [_dispatch_kl] computes for its key
    on the current [_KL_REGISTRY]. *)
Definition memo_coherent (s : engine) : Prop :=
  ∀ type_p type_q fn,
    _KL_MEMOIZE s !! (type_p, type_q) = Some fn →
    ∃ ws, _dispatch_kl (_KL_REGISTRY s) type_p type_q = Ok (fn, ws).

(** The states that a sequence of [kl_divergence] calls leads to. *)
Inductive facade_calls : engine → engine → Prop :=
| facade_calls_nil s : facade_calls s s
| facade_calls_cons s p q s' :
    facade_calls (kl_divergence p q s).1.2 s' → facade_calls s s'.

(** The states that registrations and [kl_divergence] calls lead to from the
    state at import time. *)
Inductive reachable : engine → Prop :=
| reachable_init : reachable (Engine [] ∅)
| reachable_register s type_p type_q fn :
    reachable s → reachable (decorator type_p type_q fn s).2
| reachable_call s p q :
    reachable s → reachable (kl_divergence p q s).1.2.

End engine.

(** ** A concrete class hierarchy

    The classes of the docstring of [register_kl] ([BaseP], [DerivedP],
    [BaseQ], [DerivedQ]) next to [Distribution], one of its families and the
    builtin [int], with single inheritance. *)
Module Classes.

Inductive pycls : Type :=
| object | int | Distribution | Normal
| BaseP | DerivedP | BaseQ | DerivedQ.

#[global] Instance pycls_eq_dec : EqDecision pycls.
Proof. solve_decision. Defined.

Definition pycls_code (c : pycls) : nat :=
  match c with
  | object => 0 | int => 1 | Distribution => 2 | Normal => 3
  | BaseP => 4 | DerivedP => 5 | BaseQ => 6 | DerivedQ => 7
  end.

Definition pycls_of_code (n : nat) : pycls :=
  match n with
  | 0 => object | 1 => int | 2 => Distribution | 3 => Normal
  | 4 => BaseP | 5 => DerivedP | 6 => BaseQ | _ => DerivedQ
  end.

#[global] Instance pycls_countable : Countable pycls.
Proof.
  apply (inj_countable' pycls_code pycls_of_code). intros []; reflexivity.
Defined.

(** [__bases__]: the single direct base class. *)
Definition base (c : pycls) : option pycls :=
  match c with
  | object => None
  | int | Distribution => Some object
  | Normal | BaseP | BaseQ => Some Distribution
  | DerivedP => Some BaseP
  | DerivedQ => Some BaseQ
  end.

(** [__mro__], walking up the bases. *)
Fixpoint mro_from (fuel : nat) (c : pycls) : list pycls :=
  match fuel with
  | 0 => [c]
  | S fuel' =>
      c :: match base c with
           | Some b => mro_from fuel' b
           | None => []
           end
  end.
Definition mro (c : pycls) : list pycls := mro_from 8 c.

Definition issubclass (x y : pycls) : bool := bool_decide (y ∈ mro x).

Definition __name__ (c : pycls) : string :=
  match c with
  | object => "object" | int => "int" | Distribution => "Distribution"
  | Normal => "Normal" | BaseP => "BaseP" | DerivedP => "DerivedP"
  | BaseQ => "BaseQ" | DerivedQ => "DerivedQ"
  end.

(** Registered functions. *)
Inductive pyfn : Type := kl_version1 | kl_version2 | kl_normal_normal.

#[global] Instance pyfn_eq_dec : EqDecision pyfn.
Proof. solve_decision. Defined.

(** Objects are given by their class and an identifier; a call of a
    registered function is kept symbolic. *)
Record obj : Type := Obj { ob_type : pycls; ob_id : nat }.

Inductive retval : Type := Returned (f : pyfn) (p q : obj).

Definition empty : engine (cls := pycls) (handler := pyfn) := Engine [] ∅.

(** The registry of the docstring: two crossed overrides. *)
Definition crossed : engine (cls := pycls) (handler := pyfn) :=
  Engine [((BaseP, DerivedQ), kl_version1); ((DerivedP, BaseQ), kl_version2)] ∅.

(** The same registry once the tie has been broken, as the docstring
    advises. *)
Definition tie_broken : engine (cls := pycls) (handler := pyfn) :=
  Engine [((BaseP, DerivedQ), kl_version1); ((DerivedP, BaseQ), kl_version2);
          ((DerivedP, DerivedQ), kl_version1)] ∅.

(** A rule for a base class on both sides and one for a family on the left. *)
Definition general_and_special : engine (cls := pycls) (handler := pyfn) :=
  Engine [((Distribution, Distribution), kl_version1);
          ((Normal, Distribution), kl_normal_normal)] ∅.

End Classes.

(** ** The catalogue of rules

    The [@register_kl] lines of the module, for the classes it imports and the
    functions it defines.  The bodies of the functions are tensor arithmetic
    and stay opaque; the classes are defined in other modules. *)
Module Catalog.

(** The distribution classes imported at the top of the module. *)
Inductive family : Type :=
  | Bernoulli | Binomial | Beta | Dirichlet | Exponential | Gamma
  | Geometric | Gumbel | Laplace | Normal | Pareto | Uniform.

#[global] Instance family_eq_dec : EqDecision family.
Proof. solve_decision. Defined.

Definition family_code (F : family) : nat :=
  match F with
  | Bernoulli => 0 | Binomial => 1 | Beta => 2 | Dirichlet => 3
  | Exponential => 4 | Gamma => 5 | Geometric => 6 | Gumbel => 7
  | Laplace => 8 | Normal => 9 | Pareto => 10 | Uniform => 11
  end.

Definition family_of_code (n : nat) : family :=
  match n with
  | 0 => Bernoulli | 1 => Binomial | 2 => Beta | 3 => Dirichlet
  | 4 => Exponential | 5 => Gamma | 6 => Geometric | 7 => Gumbel
  | 8 => Laplace | 9 => Normal | 10 => Pareto | _ => Uniform
  end.

#[global] Instance family_countable : Countable family.
Proof.
  apply (inj_countable' family_code family_of_code). intros []; reflexivity.
Defined.

(** The functions decorated with [@register_kl]. *)
Inductive kl_function : Type :=
  | _kl_bernoulli_bernoulli | _kl_beta_beta | _kl_binomial_binomial
  | _kl_dirichlet_dirichlet | _kl_exponential_exponential | _kl_gamma_gamma
  | _kl_gumbel_gumbel | _kl_geometric_geometric | _kl_laplace_laplace
  | _kl_normal_normal | _kl_pareto_pareto | _kl_uniform_uniform
  | _kl_beta_infinity | _kl_beta_exponential | _kl_beta_gamma
  | _kl_beta_normal | _kl_beta_uniform | _kl_exponential_infinity
  | _kl_exponential_gamma | _kl_exponential_gumbel | _kl_exponential_normal
  | _kl_gamma_infinity | _kl_gamma_exponential | _kl_gamma_gumbel
  | _kl_gamma_normal | _kl_gumbel_infinity | _kl_gumbel_normal
  | _kl_laplace_infinity | _kl_laplace_normal | _kl_normal_infinity
  | _kl_normal_gumbel | _kl_pareto_infinity | _kl_pareto_exponential
  | _kl_pareto_gamma | _kl_pareto_laplace | _kl_pareto_normal
  | _kl_uniform_beta | _kl_uniform_exponetial | _kl_uniform_gamma
  | _kl_uniform_gumbel | _kl_uniform_normal | _kl_uniform_pareto.

#[global] Instance kl_function_eq_dec : EqDecision kl_function.
Proof. solve_decision. Defined.

(** The registrations in the order in which they take effect: from top to
    bottom of the module, and from the innermost decorator outwards where
    several are stacked on one function. *)
Definition registrations : list (family * family * kl_function) :=
    [((Bernoulli, Bernoulli), _kl_bernoulli_bernoulli);
     ((Beta, Beta), _kl_beta_beta);
     ((Binomial, Binomial), _kl_binomial_binomial);
     ((Dirichlet, Dirichlet), _kl_dirichlet_dirichlet);
     ((Exponential, Exponential), _kl_exponential_exponential);
     ((Gamma, Gamma), _kl_gamma_gamma);
     ((Gumbel, Gumbel), _kl_gumbel_gumbel);
     ((Geometric, Geometric), _kl_geometric_geometric);
     ((Laplace, Laplace), _kl_laplace_laplace);
     ((Normal, Normal), _kl_normal_normal);
     ((Pareto, Pareto), _kl_pareto_pareto);
     ((Uniform, Uniform), _kl_uniform_uniform);
     ((Beta, Pareto), _kl_beta_infinity);
     ((Beta, Exponential), _kl_beta_exponential);
     ((Beta, Gamma), _kl_beta_gamma);
     ((Beta, Normal), _kl_beta_normal);
     ((Beta, Uniform), _kl_beta_uniform);
     ((Exponential, Uniform), _kl_exponential_infinity);
     ((Exponential, Pareto), _kl_exponential_infinity);
     ((Exponential, Beta), _kl_exponential_infinity);
     ((Exponential, Gamma), _kl_exponential_gamma);
     ((Exponential, Gumbel), _kl_exponential_gumbel);
     ((Exponential, Normal), _kl_exponential_normal);
     ((Gamma, Uniform), _kl_gamma_infinity);
     ((Gamma, Pareto), _kl_gamma_infinity);
     ((Gamma, Beta), _kl_gamma_infinity);
     ((Gamma, Exponential), _kl_gamma_exponential);
     ((Gamma, Gumbel), _kl_gamma_gumbel);
     ((Gamma, Normal), _kl_gamma_normal);
     ((Gumbel, Uniform), _kl_gumbel_infinity);
     ((Gumbel, Pareto), _kl_gumbel_infinity);
     ((Gumbel, Gamma), _kl_gumbel_infinity);
     ((Gumbel, Exponential), _kl_gumbel_infinity);
     ((Gumbel, Beta), _kl_gumbel_infinity);
     ((Gumbel, Normal), _kl_gumbel_normal);
     ((Laplace, Uniform), _kl_laplace_infinity);
     ((Laplace, Pareto), _kl_laplace_infinity);
     ((Laplace, Gamma), _kl_laplace_infinity);
     ((Laplace, Exponential), _kl_laplace_infinity);
     ((Laplace, Beta), _kl_laplace_infinity);
     ((Laplace, Normal), _kl_laplace_normal);
     ((Normal, Uniform), _kl_normal_infinity);
     ((Normal, Pareto), _kl_normal_infinity);
     ((Normal, Gamma), _kl_normal_infinity);
     ((Normal, Exponential), _kl_normal_infinity);
     ((Normal, Beta), _kl_normal_infinity);
     ((Normal, Gumbel), _kl_normal_gumbel);
     ((Pareto, Uniform), _kl_pareto_infinity);
     ((Pareto, Beta), _kl_pareto_infinity);
     ((Pareto, Exponential), _kl_pareto_exponential);
     ((Pareto, Gamma), _kl_pareto_gamma);
     ((Pareto, Laplace), _kl_pareto_laplace);
     ((Pareto, Normal), _kl_pareto_normal);
     ((Uniform, Beta), _kl_uniform_beta);
     ((Uniform, Exponential), _kl_uniform_exponetial);
     ((Uniform, Gamma), _kl_uniform_gamma);
     ((Uniform, Gumbel), _kl_uniform_gumbel);
     ((Uniform, Normal), _kl_uniform_normal);
     ((Uniform, Pareto), _kl_uniform_pareto)].

Section import.
Context {cls : Type} `{Countable cls}.
Variable issubclass : cls → cls → bool.
Variable Distribution : cls.
Variable __name__ : cls → string.

(** The class object that each imported name is bound to. *)
Variable class_of : family → cls.

Abbreviation state := (engine (cls := cls) (handler := kl_function)).

(** One decorated definition: [register_kl(type_p, type_q)(fun)]. *)
Definition register_one (s : state) (r : family * family * kl_function)
  : res state :=
  d ← register_kl issubclass Distribution __name__
         (PyType (class_of r.1.1)) (PyType (class_of r.1.2));
  Ok (d r.2 s).2.

Fixpoint register_all (s : state) (rs : list (family * family * kl_function))
  : res state :=
  match rs with
  | [] => Ok s
  | r :: rs' => s' ← register_one s r; register_all s' rs'
  end.

(** The state of the module once it has been imported. *)
Definition import_kl : res state := register_all (Engine [] ∅) registrations.

(** The registry the catalogue amounts to. *)
Definition catalog_registry : registry (cls := cls) (handler := kl_function) :=
  (λ r : family * family * kl_function,
     ((class_of r.1.1, class_of r.1.2), r.2)) <$> registrations.
End import.

(** A hierarchy to try the catalogue on: [None] stands for [Distribution],
    [Some F] for the class of the family [F], each a direct subclass of
    [Distribution]. *)
Definition flat_issubclass (x y : option family) : bool :=
  match y with
  | None => true
  | Some _ => bool_decide (x = y)
  end.

Definition flat_name (x : option family) : string :=
  match x with
  | None => "Distribution"
  | Some Bernoulli => "Bernoulli" | Some Binomial => "Binomial"
  | Some Beta => "Beta" | Some Dirichlet => "Dirichlet"
  | Some Exponential => "Exponential" | Some Gamma => "Gamma"
  | Some Geometric => "Geometric" | Some Gumbel => "Gumbel"
  | Some Laplace => "Laplace" | Some Normal => "Normal"
  | Some Pareto => "Pareto" | Some Uniform => "Uniform"
  end.

End Catalog.

(** ** Properties of the dictionaries *)

Section dict_facts.
Context {K V : Type} `{EqDecision K}.
Implicit Types (d : list (K * V)) (k : K) (v : V).

Lemma dict_get_set_eq d k v : dict_get (dict_set d k v) k = Some v.
Proof.
  induction d as [|[k' v'] d IH]; simpl.
  - by rewrite decide_True.
  - destruct (decide (k = k')) as [->|Hne]; simpl.
    + by rewrite decide_True.
    + by rewrite decide_False.
Qed.

Lemma dict_get_set_ne d k k' v :
  k ≠ k' → dict_get (dict_set d k v) k' = dict_get d k'.
Proof.
  intros Hne. induction d as [|[k0 v0] d IH]; simpl.
  - by rewrite decide_False.
  - destruct (decide (k = k0)) as [->|Hk]; simpl.
    + by rewrite !decide_False.
    + destruct (decide (k' = k0)); [done | apply IH].
Qed.

Lemma dict_get_Some_keys d k v : dict_get d k = Some v → k ∈ dict_keys d.
Proof.
  unfold dict_keys. induction d as [|[k' v'] d IH]; simpl; [done|].
  destruct (decide (k = k')) as [->|]; intros Hg.
  - apply list_elem_of_here.
  - apply list_elem_of_further, IH, Hg.
Qed.

Lemma dict_get_keys_Some d k : k ∈ dict_keys d → is_Some (dict_get d k).
Proof.
  unfold dict_keys. induction d as [|[k' v'] d IH]; simpl.
  - intros Hin. by apply elem_of_nil in Hin.
  - intros Hin. destruct (decide (k = k')) as [->|Hne]; [by eexists|].
    apply elem_of_cons in Hin as [?|Hin]; [done | by apply IH].
Qed.


(** Assigning to a key that is present keeps the sequence of keys. *)
Lemma dict_keys_set_in d k v :
  k ∈ dict_keys d → dict_keys (dict_set d k v) = dict_keys d.
Proof.
  unfold dict_keys. induction d as [|[k' v'] d IH]; simpl.
  - intros Hin. by apply elem_of_nil in Hin.
  - intros Hin. destruct (decide (k = k')) as [->|Hne]; simpl; [done|].
    apply elem_of_cons in Hin as [?|Hin]; [done|]. f_equal. by apply IH.
Qed.

(** Assigning to a new key appends it. *)
Lemma dict_keys_set_notin d k v :
  k ∉ dict_keys d → dict_keys (dict_set d k v) = dict_keys d ++ [k].
Proof.
  unfold dict_keys. induction d as [|[k' v'] d IH]; simpl; [done|].
  intros Hin. apply not_elem_of_cons in Hin as [Hne Hin].
  rewrite decide_False by done. simpl. f_equal. by apply IH.
Qed.

Lemma dict_set_NoDup d k v :
  NoDup (dict_keys d) → NoDup (dict_keys (dict_set d k v)).
Proof.
  intros Hnd. destruct (decide (k ∈ dict_keys d)) as [Hin|Hin].
  - by rewrite dict_keys_set_in.
  - rewrite dict_keys_set_notin by done.
    apply NoDup_app. split_and!; [done| |apply NoDup_singleton].
    intros x Hx Hx'. apply list_elem_of_singleton in Hx' as ->. done.
Qed.

Lemma getitem_Ok d k v : getitem d k = Ok v ↔ dict_get d k = Some v.
Proof. unfold getitem. destruct (dict_get d k); split; congruence. Qed.
End dict_facts.

(** ** Properties of the engine *)

Section properties.
Context {cls : Type} `{Countable cls}.
Variable issubclass : cls → cls → bool.
Variable Distribution : cls.
Variable __name__ : cls → string.
Context {handler : Type} `{EqDecision handler}.
Context {instance value : Type}.
Variable type : instance → cls.
Variable call : handler → instance → instance → value.

(** The class hierarchy is a partial order under [issubclass]. *)
Hypothesis issubclass_refl : ∀ x, issubclass x x = true.
Hypothesis issubclass_antisym :
  ∀ x y, issubclass x y = true → issubclass y x = true → x = y.

Abbreviation le := (_Match__le__ issubclass).
Abbreviation lt := (_Match__lt__ issubclass).
Abbreviation pmin := (py_min issubclass).
Abbreviation lmin := (left_min issubclass).
Abbreviation rmin := (right_min issubclass).
Abbreviation cands := (matches issubclass).
Abbreviation dispatch := (_dispatch_kl issubclass __name__).
Abbreviation lookup_fun := (memoized_lookup issubclass __name__).
Abbreviation kl := (kl_divergence issubclass __name__ type call).
Abbreviation ambiguity := (ambiguity_message __name__).

Implicit Types (reg : registry (cls := cls) (handler := handler)).
Implicit Types (s : engine (cls := cls) (handler := handler)).
Implicit Types (A B : cls) (m : _Match (cls := cls)).

(** *** The comparison *)

Lemma le_cons x y xs ys :
  le (Match_ (x :: xs)) (Match_ (y :: ys)) =
    if negb (issubclass x y) then false
    else if negb (bool_decide (x = y)) then true
    else le (Match_ xs) (Match_ ys).
Proof. reflexivity. Qed.

Lemma le_pair p1 q1 p2 q2 :
  le (Match_ [p1; q1]) (Match_ [p2; q2]) =
    issubclass p1 p2 && (negb (bool_decide (p1 = p2)) || issubclass q1 q2).
Proof.
  rewrite !le_cons. destruct (issubclass p1 p2); simpl; [|done].
  destruct (bool_decide (p1 = p2)); simpl; [|done].
  destruct (issubclass q1 q2); simpl; [|done].
  by destruct (bool_decide (q1 = q2)).
Qed.

Lemma lt_irrefl m : lt m m = false.
Proof.
  unfold _Match__lt__, _Match__eq__. rewrite bool_decide_eq_true_2 by done.
  apply andb_false_r.
Qed.

(** *** [min] *)

Lemma foldl_min_step_elem (x : _Match) xs :
  foldl (min_step issubclass) x xs ∈ x :: xs.
Proof.
  revert x. induction xs as [|y ys IH]; intros x; simpl.
  - apply list_elem_of_here.
  - specialize (IH (min_step issubclass x y)).
    apply elem_of_cons in IH as [->|IH].
    + unfold min_step. destruct (lt y x).
      * apply list_elem_of_further, list_elem_of_here.
      * apply list_elem_of_here.
    + by do 2 apply list_elem_of_further.
Qed.

Lemma py_min_Ok (l : list _Match) :
  l ≠ [] → ∃ m, pmin l = Ok m ∧ m ∈ l.
Proof.
  destruct l as [|x xs]; [done|]. intros _. eexists. split; [done|].
  apply foldl_min_step_elem.
Qed.

(** An item that is strictly below every other item of the list, and that
    no other item is strictly below, is the one [min] returns. *)
Lemma foldl_min_step_least m0 x xs :
  (∀ y, y ∈ x :: xs → y ≠ m0 → lt m0 y = true ∧ lt y m0 = false) →
  m0 ∈ x :: xs →
  foldl (min_step issubclass) x xs = m0.
Proof.
  revert x. induction xs as [|y ys IH]; intros x Hleast Hin; simpl.
  - apply elem_of_cons in Hin as [->|Hin]; [done|].
    by apply elem_of_nil in Hin.
  - apply IH.
    + intros z Hz Hne. apply Hleast; [|done].
      apply elem_of_cons in Hz as [->|Hz].
      * unfold min_step.
        destruct (lt y x); [apply list_elem_of_further|]; apply list_elem_of_here.
      * by do 2 apply list_elem_of_further.
    + unfold min_step.
      destruct (decide (x = m0)) as [->|Hx].
      * destruct (decide (y = m0)) as [->|Hy].
        -- rewrite lt_irrefl. apply list_elem_of_here.
        -- destruct (Hleast y) as [_ ->]; [|done|apply list_elem_of_here].
           apply list_elem_of_further, list_elem_of_here.
      * apply elem_of_cons in Hin as [->|Hin]; [done|].
        apply elem_of_cons in Hin as [->|Hin].
        -- destruct (Hleast x) as [-> _]; [apply list_elem_of_here|done|].
           apply list_elem_of_here.
        -- by apply list_elem_of_further.
Qed.

Lemma py_min_least m0 (l : list _Match) :
  (∀ y, y ∈ l → y ≠ m0 → lt m0 y = true ∧ lt y m0 = false) →
  m0 ∈ l → pmin l = Ok m0.
Proof.
  destruct l as [|x xs]; intros Hleast Hin.
  - by apply elem_of_nil in Hin.
  - simpl. f_equal. by apply foldl_min_step_least.
Qed.

(** *** The candidates *)

Lemma matches_elem reg A B p q :
  (p, q) ∈ cands reg A B ↔
  (p, q) ∈ dict_keys reg ∧ issubclass A p = true ∧ issubclass B q = true.
Proof.
  unfold matches. rewrite !list_elem_of_In, filter_In. simpl.
  rewrite andb_true_iff. done.
Qed.

Lemma left_min_Ok (ms : list (cls * cls)) :
  ms ≠ [] → ∃ p q, lmin ms = Ok (Match_ [p; q]) ∧ (p, q) ∈ ms.
Proof.
  intros Hne. unfold left_min.
  destruct (py_min_Ok (map (λ m : cls * cls, Match_ [m.1; m.2]) ms))
    as (m & Hm & Hin).
  { by destruct ms. }
  apply list_elem_of_fmap in Hin as ([p q] & -> & Hin). by exists p, q.
Qed.

Lemma right_min_Ok (ms : list (cls * cls)) :
  ms ≠ [] → ∃ p q, rmin ms = Ok (Match_ [q; p]) ∧ (p, q) ∈ ms.
Proof.
  intros Hne. unfold right_min.
  destruct (py_min_Ok (map (λ m : cls * cls, Match_ [m.2; m.1]) ms))
    as (m & Hm & Hin).
  { by destruct ms. }
  apply list_elem_of_fmap in Hin as ([p q] & -> & Hin). by exists p, q.
Qed.

(** *** The resolver *)

Lemma dispatch_no_match reg A B :
  cands reg A B = [] → dispatch reg A B = Ok (NotImplemented, []).
Proof. intros Hms. unfold _dispatch_kl. by rewrite Hms. Qed.

(** With candidates, both selections are candidates, both lookups succeed,
    and the result is the left one, with a warning when they differ. *)
Lemma dispatch_selects reg A B :
  cands reg A B ≠ [] →
  ∃ left_p left_q right_p right_q left_fun right_fun,
    lmin (cands reg A B) = Ok (Match_ [left_p; left_q]) ∧
    rmin (cands reg A B) = Ok (Match_ [right_q; right_p]) ∧
    (left_p, left_q) ∈ cands reg A B ∧
    (right_p, right_q) ∈ cands reg A B ∧
    dict_get reg (left_p, left_q) = Some left_fun ∧
    dict_get reg (right_p, right_q) = Some right_fun ∧
    dispatch reg A B =
      Ok (Fun left_fun,
          if decide (left_fun = right_fun) then []
          else [Warning (ambiguity A B left_p right_q) RuntimeWarning]).
Proof.
  intros Hne.
  destruct (left_min_Ok _ Hne) as (lp & lq & Hl & Hlin).
  destruct (right_min_Ok _ Hne) as (rp & rq & Hr & Hrin).
  pose proof Hlin as Hlk. apply matches_elem in Hlk as [Hlk _].
  pose proof Hrin as Hrk. apply matches_elem in Hrk as [Hrk _].
  apply dict_get_keys_Some in Hlk as [lf Hlf].
  apply dict_get_keys_Some in Hrk as [rf Hrf].
  exists lp, lq, rp, rq, lf, rf. split_and!; try done.
  unfold _dispatch_kl. rewrite bool_decide_eq_false_2 by done.
  rewrite Hl, Hr. simpl. unfold getitem. rewrite Hlf, Hrf. simpl.
  destruct (decide (lf = rf)) as [->|Hd].
  - by rewrite bool_decide_eq_false_2 by (intros Hc; by apply Hc).
  - by rewrite bool_decide_eq_true_2.
Qed.

Lemma dispatch_total reg A B : ∃ fn ws, dispatch reg A B = Ok (fn, ws).
Proof.
  destruct (decide (cands reg A B = [])) as [He|Hne].
  - rewrite dispatch_no_match by done. by eexists _, _.
  - destruct (dispatch_selects reg A B Hne)
      as (? & ? & ? & ? & ? & ? & _ & _ & _ & _ & _ & _ & ->).
    by eexists _, _.
Qed.

(** The exact pair is below every other candidate, in both orders. *)
Lemma exact_pair_least (ms : list (cls * cls)) A B (swap : bool) :
  (∀ p q, (p, q) ∈ ms → issubclass A p = true ∧ issubclass B q = true) →
  (A, B) ∈ ms →
  pmin (map (λ k : cls * cls,
               if swap then Match_ [k.2; k.1] else Match_ [k.1; k.2]) ms)
  = Ok (if swap then Match_ [B; A] else Match_ [A; B]).
Proof.
  intros Hsub Hin. apply py_min_least.
  - intros y Hy Hne. apply list_elem_of_fmap in Hy as ([p q] & -> & Hpq).
    destruct (Hsub p q Hpq) as [HAp HBq]. simpl in *.
    unfold _Match__lt__, _Match__eq__.
    destruct swap; rewrite !le_pair, ?HAp, ?HBq; simpl.
    + rewrite orb_true_r. simpl.
      rewrite (bool_decide_eq_false_2 ([B; A] = [q; p])) by congruence.
      split; [done|].
      destruct (issubclass q B) eqn:HqB; simpl; [|done].
      assert (q = B) as -> by (by apply issubclass_antisym).
      rewrite bool_decide_eq_true_2 by done. simpl.
      destruct (issubclass p A) eqn:HpA; simpl; [|done].
      assert (p = A) as -> by (by apply issubclass_antisym). done.
    + rewrite orb_true_r. simpl.
      rewrite (bool_decide_eq_false_2 ([A; B] = [p; q])) by congruence.
      split; [done|].
      destruct (issubclass p A) eqn:HpA; simpl; [|done].
      assert (p = A) as -> by (by apply issubclass_antisym).
      rewrite bool_decide_eq_true_2 by done. simpl.
      destruct (issubclass q B) eqn:HqB; simpl; [|done].
      assert (q = B) as -> by (by apply issubclass_antisym). done.
  - apply list_elem_of_fmap. exists (A, B). by destruct swap.
Qed.

Lemma exact_pair_candidate reg A B fn :
  dict_get reg (A, B) = Some fn → (A, B) ∈ cands reg A B.
Proof.
  intros Hg. apply matches_elem. split_and!; [|done..].
  by eapply dict_get_Some_keys.
Qed.

Lemma exact_pair_mins reg A B fn :
  dict_get reg (A, B) = Some fn →
  lmin (cands reg A B) = Ok (Match_ [A; B]) ∧
  rmin (cands reg A B) = Ok (Match_ [B; A]).
Proof.
  intros Hg. pose proof (exact_pair_candidate _ _ _ _ Hg) as Hin.
  assert (∀ p q, (p, q) ∈ cands reg A B →
                 issubclass A p = true ∧ issubclass B q = true) as Hsub.
  { intros p q Hpq. by apply matches_elem in Hpq as (_ & ? & ?). }
  split.
  - apply (exact_pair_least _ A B false Hsub Hin).
  - apply (exact_pair_least _ A B true Hsub Hin).
Qed.

Lemma dispatch_exact reg A B fn :
  dict_get reg (A, B) = Some fn → dispatch reg A B = Ok (Fun fn, []).
Proof.
  intros Hg. destruct (exact_pair_mins _ _ _ _ Hg) as [Hl Hr].
  pose proof (exact_pair_candidate _ _ _ _ Hg) as Hin.
  destruct (dispatch_selects reg A B)
    as (lp & lq & rp & rq & lf & rf & Hl' & Hr' & _ & _ & Hlf & Hrf & ->).
  { intros He. rewrite He in Hin. by apply elem_of_nil in Hin. }
  rewrite Hl in Hl'. rewrite Hr in Hr'. simplify_eq.
  by rewrite decide_True.
Qed.

(** C2: the comparison [m <= n] walks the positions in order.  It is false
    at the first position where the class of [m] is not a subclass of the
    class of [n]; it is true at the first position where the class of [m] is
    a strict subclass, whatever follows; it moves on to the next position
    when the two classes are the same; and it is true when the positions are
    exhausted.  The last part spells this out for pairs. *)
Theorem Match_le_by_position :
  (∀ x y xs ys,
     issubclass x y = false → le (Match_ (x :: xs)) (Match_ (y :: ys)) = false) ∧
  (∀ x y xs ys,
     issubclass x y = true → x ≠ y →
     le (Match_ (x :: xs)) (Match_ (y :: ys)) = true) ∧
  (∀ x xs ys,
     le (Match_ (x :: xs)) (Match_ (x :: ys)) = le (Match_ xs) (Match_ ys)) ∧
  (∀ ts, le (Match_ []) (Match_ ts) = true ∧ le (Match_ ts) (Match_ []) = true) ∧
  (∀ p1 q1 p2 q2,
     le (Match_ [p1; q1]) (Match_ [p2; q2]) =
       if negb (issubclass p1 p2) then false
       else if negb (bool_decide (p1 = p2)) then true
       else if negb (issubclass q1 q2) then false
       else true).
Proof.
  split_and!.
  - intros x y xs ys Hsub. by rewrite le_cons, Hsub.
  - intros x y xs ys Hsub Hne. rewrite le_cons, Hsub. simpl.
    by rewrite bool_decide_eq_false_2.
  - intros x xs ys. rewrite le_cons, issubclass_refl. simpl.
    by rewrite bool_decide_eq_true_2.
  - intros ts. split; [done|]. by destruct ts.
  - intros p1 q1 p2 q2. rewrite !le_cons.
    destruct (issubclass p1 p2); simpl; [|done].
    destruct (bool_decide (p1 = p2)); simpl; [|done].
    destruct (issubclass q1 q2); simpl; [|done].
    by destruct (bool_decide (q1 = q2)).
Qed.

(** C1: when the query has candidates, the pair that is minimal from the
    left and the pair that is minimal in the reversed order are both found
    in the registry.  If their functions differ, the resolver emits exactly
    one warning, a [RuntimeWarning] whose message names the two query
    classes and suggests registering [(left_p, right_q)], and returns the
    left function; if they are the same function it emits no warning and
    returns that function. *)
Theorem dispatch_warns_iff_selections_differ reg A B :
  cands reg A B ≠ [] →
  ∃ left_p left_q right_p right_q left_fun right_fun,
    lmin (cands reg A B) = Ok (Match_ [left_p; left_q]) ∧
    rmin (cands reg A B) = Ok (Match_ [right_q; right_p]) ∧
    dict_get reg (left_p, left_q) = Some left_fun ∧
    dict_get reg (right_p, right_q) = Some right_fun ∧
    (left_fun ≠ right_fun →
     dispatch reg A B =
       Ok (Fun left_fun,
           [Warning ("Ambiguous kl_divergence(" +:+ __name__ A +:+ ", "
                       +:+ __name__ B +:+ "). Please register_kl("
                       +:+ __name__ left_p +:+ ", " +:+ __name__ right_q
                       +:+ ")")
                    RuntimeWarning])) ∧
    (left_fun = right_fun → dispatch reg A B = Ok (Fun left_fun, [])).
Proof.
  intros Hne.
  destruct (dispatch_selects reg A B Hne)
    as (lp & lq & rp & rq & lf & rf & Hl & Hr & _ & _ & Hlf & Hrf & Hd).
  exists lp, lq, rp, rq, lf, rf. split_and!; try done.
  - intros Hdiff. rewrite Hd. by rewrite decide_False.
  - intros Hsame. rewrite Hd. by rewrite decide_True.
Qed.

(** C9: when the exact query pair is registered, it is the minimum in both
    orders, and the resolver returns its function without a warning. *)
Theorem exact_pair_resolves reg A B fn :
  dict_get reg (A, B) = Some fn →
  lmin (cands reg A B) = Ok (Match_ [A; B]) ∧
  rmin (cands reg A B) = Ok (Match_ [B; A]) ∧
  dispatch reg A B = Ok (Fun fn, []).
Proof.
  intros Hg. destruct (exact_pair_mins _ _ _ _ Hg) as [Hl Hr].
  split_and!; [done..|]. by apply dispatch_exact.
Qed.

(** C3: with rules for [(Base, Base)] and [(Derived, Base)], where [Derived]
    is a strict subclass of [Base], both rules are candidates of the query
    [(Derived, Base)], and the resolver returns the function registered for
    [(Derived, Base)]; it does not return the [(Base, Base)] function unless
    that is the very same function. *)
Theorem derived_base_specificity reg Base Derived f_bb f_db :
  issubclass Derived Base = true →
  Derived ≠ Base →
  dict_get reg (Base, Base) = Some f_bb →
  dict_get reg (Derived, Base) = Some f_db →
  (Base, Base) ∈ cands reg Derived Base ∧
  (Derived, Base) ∈ cands reg Derived Base ∧
  dispatch reg Derived Base = Ok (Fun f_db, []) ∧
  (f_db ≠ f_bb → ∀ ws, dispatch reg Derived Base ≠ Ok (Fun f_bb, ws)).
Proof.
  intros Hsub Hne Hbb Hdb. split_and!.
  - apply matches_elem. split_and!; [|done..]. by eapply dict_get_Some_keys.
  - by eapply exact_pair_candidate.
  - by apply dispatch_exact.
  - intros Hd ws. rewrite (dispatch_exact _ _ _ _ Hdb). congruence.
Qed.

(** *** The cache and the facade *)

Lemma lookup_fun_hit s A B fn :
  _KL_MEMOIZE s !! (A, B) = Some fn → lookup_fun s A B = Ok (fn, s, []).
Proof. intros Hm. unfold memoized_lookup. by rewrite Hm. Qed.

Lemma lookup_fun_miss s A B fn ws :
  _KL_MEMOIZE s !! (A, B) = None →
  dispatch (_KL_REGISTRY s) A B = Ok (fn, ws) →
  lookup_fun s A B =
    Ok (fn, Engine (_KL_REGISTRY s) (<[(A, B) := fn]> (_KL_MEMOIZE s)), ws).
Proof. intros Hm Hd. unfold memoized_lookup. by rewrite Hm, Hd. Qed.

(** The lookup never raises; it leaves the registry and the other cache
    entries alone, and afterwards the cache holds what it returned. *)
Lemma lookup_fun_frame s A B :
  ∃ fn s' ws,
    lookup_fun s A B = Ok (fn, s', ws) ∧
    _KL_REGISTRY s' = _KL_REGISTRY s ∧
    _KL_MEMOIZE s' !! (A, B) = Some fn ∧
    (_KL_MEMOIZE s' = _KL_MEMOIZE s ∨
     _KL_MEMOIZE s !! (A, B) = None ∧
     dispatch (_KL_REGISTRY s) A B = Ok (fn, ws) ∧
     _KL_MEMOIZE s' = <[(A, B) := fn]> (_KL_MEMOIZE s)).
Proof.
  destruct (_KL_MEMOIZE s !! (A, B)) as [fn|] eqn:Hm.
  - exists fn, s, []. rewrite (lookup_fun_hit _ _ _ _ Hm). split_and!; auto.
  - destruct (dispatch_total (_KL_REGISTRY s) A B) as (fn & ws & Hd).
    eexists fn, _, ws. rewrite (lookup_fun_miss _ _ _ _ _ Hm Hd). simpl.
    split_and!; [done..|apply lookup_insert_eq|]. right. done.
Qed.

Lemma kl_of_lookup p q s fn s' ws :
  lookup_fun s (type p) (type q) = Ok (fn, s', ws) →
  kl p q s =
    (match fn with
     | NotImplemented => Raise (NotImplementedError [])
     | Fun f => Ok (call f p q)
     end, s', ws).
Proof. intros Hl. unfold kl_divergence. rewrite Hl. by destruct fn. Qed.

(** On a coherent cache the lookup returns what the resolver computes on the
    registry, and the cache stays coherent. *)
Lemma lookup_fun_coherent s A B :
  memo_coherent issubclass __name__ s →
  ∃ fn s' ws ws0,
    lookup_fun s A B = Ok (fn, s', ws) ∧
    dispatch (_KL_REGISTRY s) A B = Ok (fn, ws0) ∧
    _KL_REGISTRY s' = _KL_REGISTRY s ∧
    _KL_MEMOIZE s' !! (A, B) = Some fn ∧
    memo_coherent issubclass __name__ s'.
Proof.
  intros Hco.
  destruct (lookup_fun_frame s A B) as (fn & s' & ws & Hl & Hreg & Hm & Hcase).
  destruct Hcase as [Hsame | (Hnone & Hd & Hins)].
  - assert (_KL_MEMOIZE s !! (A, B) = Some fn) as Hm0 by (by rewrite <- Hsame).
    destruct (Hco _ _ _ Hm0) as [ws0 Hd].
    exists fn, s', ws, ws0. split_and!; try done.
    intros A' B' fn' Hm'. rewrite Hreg. rewrite Hsame in Hm'. by apply Hco.
  - exists fn, s', ws, ws. split_and!; try done.
    intros A' B' fn' Hm'. rewrite Hreg. rewrite Hins in Hm'.
    destruct (decide ((A, B) = (A', B'))) as [Heq|Hneq].
    + simplify_eq. rewrite lookup_insert_eq in Hm'. simplify_eq. by exists ws.
    + rewrite lookup_insert_ne in Hm' by done. by apply Hco.
Qed.

Lemma kl_coherent p q s :
  memo_coherent issubclass __name__ s →
  memo_coherent issubclass __name__ (kl p q s).1.2 ∧
  _KL_REGISTRY (kl p q s).1.2 = _KL_REGISTRY s.
Proof.
  intros Hco.
  destruct (lookup_fun_coherent s (type p) (type q) Hco)
    as (fn & s' & ws & ws0 & Hl & _ & Hreg & _ & Hco').
  by rewrite (kl_of_lookup _ _ _ _ _ _ Hl).
Qed.

Lemma facade_calls_coherent s s' :
  facade_calls issubclass __name__ type call s s' →
  memo_coherent issubclass __name__ s →
  memo_coherent issubclass __name__ s' ∧ _KL_REGISTRY s' = _KL_REGISTRY s.
Proof.
  induction 1 as [s|s p q s' _ IH]; intros Hco; [done|].
  destruct (kl_coherent p q s Hco) as [Hco1 Hreg1].
  destruct (IH Hco1) as [Hco' Hreg']. split; [done|]. congruence.
Qed.

Lemma empty_memo_coherent reg :
  memo_coherent issubclass __name__ (Engine reg ∅).
Proof. intros A B fn Hm. simpl in Hm. by rewrite lookup_empty in Hm. Qed.

Lemma decorator_coherent s A B fn :
  memo_coherent issubclass __name__ (decorator A B fn s).2.
Proof. intros A' B' fn' Hm. simpl in Hm. by rewrite lookup_empty in Hm. Qed.

Lemma reachable_coherent s :
  reachable issubclass __name__ type call s →
  memo_coherent issubclass __name__ s.
Proof.
  induction 1 as [|s A B fn _ _|s p q _ IH].
  - intros A B fn Hm. simpl in Hm. by rewrite lookup_empty in Hm.
  - apply decorator_coherent.
  - by apply kl_coherent.
Qed.

Lemma reachable_NoDup s :
  reachable issubclass __name__ type call s →
  NoDup (dict_keys (_KL_REGISTRY s)).
Proof.
  induction 1 as [|s A B fn _ IH|s p q Hr IH].
  - apply NoDup_nil_2.
  - simpl. by apply dict_set_NoDup.
  - apply reachable_coherent in Hr.
    destruct (kl_coherent p q s Hr) as [_ ->]. done.
Qed.

(** What the facade does once the resolver's answer is known. *)
Lemma kl_resolved p q s fn ws0 :
  memo_coherent issubclass __name__ s →
  dispatch (_KL_REGISTRY s) (type p) (type q) = Ok (fn, ws0) →
  (kl p q s).1.1 =
    match fn with
    | NotImplemented => Raise (NotImplementedError [])
    | Fun f => Ok (call f p q)
    end ∧
  _KL_MEMOIZE (kl p q s).1.2 !! (type p, type q) = Some fn.
Proof.
  intros Hco Hd.
  destruct (lookup_fun_coherent s (type p) (type q) Hco)
    as (fn' & s' & ws & ws0' & Hl & Hd' & _ & Hm & _).
  rewrite (kl_of_lookup _ _ _ _ _ _ Hl). simpl.
  rewrite Hd in Hd'. by simplify_eq.
Qed.

(** C4, amended: on a coherent cache, when no registered pair matches the
    classes of the two arguments, the facade raises a [NotImplementedError]
    constructed without arguments (so it carries no message), emits no
    warning, returns no value of any function, leaves the registry alone and
    records [NotImplemented] in the cache under the exact pair. *)
Theorem kl_divergence_unresolved p q s :
  memo_coherent issubclass __name__ s →
  cands (_KL_REGISTRY s) (type p) (type q) = [] →
  (kl p q s).1.1 = Raise (NotImplementedError []) ∧
  (∀ v, (kl p q s).1.1 ≠ Ok v) ∧
  (kl p q s).2 = [] ∧
  _KL_REGISTRY (kl p q s).1.2 = _KL_REGISTRY s ∧
  _KL_MEMOIZE (kl p q s).1.2 !! (type p, type q) = Some NotImplemented.
Proof.
  intros Hco Hms. pose proof (dispatch_no_match _ _ _ Hms) as Hd.
  destruct (kl_resolved p q s _ _ Hco Hd) as [Hout Hmemo].
  destruct (kl_coherent p q s Hco) as [_ Hreg].
  split_and!; try done.
  - intros v. rewrite Hout. done.
  - destruct (lookup_fun_frame s (type p) (type q))
      as (fn & s' & ws & Hl & _ & _ & Hcase).
    rewrite (kl_of_lookup _ _ _ _ _ _ Hl). simpl.
    destruct Hcase as [Hsame | (_ & Hd' & _)].
    + unfold memoized_lookup in Hl.
      destruct (_KL_MEMOIZE s !! (type p, type q)); [by simplify_eq|].
      rewrite Hd in Hl. simpl in Hl. by simplify_eq.
    + rewrite Hd in Hd'. by simplify_eq.
Qed.

(** C10: a call of the facade leaves the registry as it is and leaves every
    cache entry other than the one of the exact pair of argument classes as
    it is; the cache is either unchanged, or it had no entry for that pair
    and gains the resolver's answer under it. *)
Theorem kl_divergence_frame p q s :
  _KL_REGISTRY (kl_divergence issubclass __name__ type call p q s).1.2 = _KL_REGISTRY s ∧
  (∀ k, k ≠ (type p, type q) →
        _KL_MEMOIZE (kl_divergence issubclass __name__ type call p q s).1.2 !! k = _KL_MEMOIZE s !! k) ∧
  (_KL_MEMOIZE (kl_divergence issubclass __name__ type call p q s).1.2 = _KL_MEMOIZE s ∨
   _KL_MEMOIZE s !! (type p, type q) = None ∧
   ∃ fn ws,
     _dispatch_kl issubclass __name__ (_KL_REGISTRY s) (type p) (type q) = Ok (fn, ws) ∧
     _KL_MEMOIZE (kl_divergence issubclass __name__ type call p q s).1.2 = <[(type p, type q) := fn]> (_KL_MEMOIZE s)).
Proof.
  destruct (lookup_fun_frame s (type p) (type q))
    as (fn & s' & ws & Hl & Hreg & _ & Hcase).
  rewrite (kl_of_lookup _ _ _ _ _ _ Hl). simpl. split_and!; [done| |].
  - intros k Hk. destruct Hcase as [->|(_ & _ & ->)]; [done|].
    by rewrite lookup_insert_ne.
  - destruct Hcase as [Hsame|(Hnone & Hd & Hins)]; [by left|].
    right. split; [done|]. by exists fn, ws.
Qed.

(** C8: on a coherent cache, a pair of classes has one answer, the one the
    resolver computes on the registry, and every call of the facade on
    objects of these classes, after any number of facade calls, finds that
    answer (from the cache or from the resolver) and acts on it; the
    registry stays the same throughout. *)
Theorem kl_divergence_deterministic s A B :
  memo_coherent issubclass __name__ s →
  ∃ fn,
    (∃ ws, dispatch (_KL_REGISTRY s) A B = Ok (fn, ws)) ∧
    ∀ s', facade_calls issubclass __name__ type call s s' →
      _KL_REGISTRY s' = _KL_REGISTRY s ∧
      (∃ s'' ws, lookup_fun s' A B = Ok (fn, s'', ws)) ∧
      ∀ p q, type p = A → type q = B →
        (kl p q s').1.1 =
          match fn with
          | NotImplemented => Raise (NotImplementedError [])
          | Fun f => Ok (call f p q)
          end.
Proof.
  intros Hco. destruct (dispatch_total (_KL_REGISTRY s) A B) as (fn & ws & Hd).
  exists fn. split; [by exists ws|]. intros s' Hcalls.
  destruct (facade_calls_coherent _ _ Hcalls Hco) as [Hco' Hreg].
  split_and!; [done| |].
  - destruct (lookup_fun_coherent s' A B Hco')
      as (fn' & s'' & ws' & ws0 & Hl & Hd' & _).
    rewrite Hreg, Hd in Hd'. simplify_eq. by exists s'', ws'.
  - intros p q <- <-. rewrite <- Hreg in Hd.
    by destruct (kl_resolved p q s' _ _ Hco' Hd).
Qed.

(** C6: applying the decorator of a registration for [(type_p, type_q)]
    returns the function, makes the registry map the exact key to it, keeps
    every other key as it was and the keys free of duplicates, and empties
    the cache whatever the registry held before.  From then on, as long as
    only the facade is called, objects of exactly these classes are handled
    by the new function, and so is every query for which the resolver
    selects the rule [(type_p, type_q)]. *)
Theorem register_overrides s type_p type_q fn :
  (decorator type_p type_q fn s).1 = fn ∧
  dict_get (_KL_REGISTRY (decorator type_p type_q fn s).2) (type_p, type_q)
    = Some fn ∧
  (∀ k, k ≠ (type_p, type_q) →
        dict_get (_KL_REGISTRY (decorator type_p type_q fn s).2) k
        = dict_get (_KL_REGISTRY s) k) ∧
  (NoDup (dict_keys (_KL_REGISTRY s)) →
   NoDup (dict_keys (_KL_REGISTRY (decorator type_p type_q fn s).2))) ∧
  _KL_MEMOIZE (decorator type_p type_q fn s).2 = ∅ ∧
  (∀ s' p q,
     facade_calls issubclass __name__ type call
       (decorator type_p type_q fn s).2 s' →
     type p = type_p → type q = type_q →
     (kl p q s').1.1 = Ok (call fn p q)) ∧
  (∀ s' p q,
     facade_calls issubclass __name__ type call
       (decorator type_p type_q fn s).2 s' →
     lmin (cands (_KL_REGISTRY s') (type p) (type q))
       = Ok (Match_ [type_p; type_q]) →
     (kl p q s').1.1 = Ok (call fn p q)).
Proof.
  set (s1 := (decorator type_p type_q fn s).2).
  assert (dict_get (_KL_REGISTRY s1) (type_p, type_q) = Some fn) as Hget
    by apply dict_get_set_eq.
  pose proof (decorator_coherent s type_p type_q fn) as Hco1. fold s1 in Hco1.
  split_and!; try done.
  - intros k Hk. by apply dict_get_set_ne.
  - apply dict_set_NoDup.
  - intros s' p q Hcalls <- <-.
    destruct (facade_calls_coherent _ _ Hcalls Hco1) as [Hco' Hreg].
    rewrite <- Hreg in Hget.
    by destruct (kl_resolved p q s' _ _ Hco' (dispatch_exact _ _ _ _ Hget)).
  - intros s' p q Hcalls Hl.
    destruct (facade_calls_coherent _ _ Hcalls Hco1) as [Hco' Hreg].
    rewrite <- Hreg in Hget.
    destruct (dispatch_selects (_KL_REGISTRY s') (type p) (type q))
      as (lp & lq & rp & rq & lf & rf & Hl' & _ & _ & _ & Hlf & _ & Hd).
    { intros He. rewrite He in Hl. done. }
    rewrite Hl in Hl'. simplify_eq.
    by destruct (kl_resolved p q s' _ _ Hco' Hd).
Qed.

(** A rule that matches a query without candidates becomes its only
    candidate. *)
Lemma matches_first_rule reg A B type_p type_q fn :
  cands reg A B = [] →
  issubclass A type_p = true → issubclass B type_q = true →
  cands (dict_set reg (type_p, type_q) fn) A B = [(type_p, type_q)].
Proof.
  intros Hms HA HB.
  assert ((type_p, type_q) ∉ dict_keys reg) as Hnotin.
  { intros Hin. assert ((type_p, type_q) ∈ cands reg A B) as Hc
      by (by apply matches_elem).
    rewrite Hms in Hc. by apply elem_of_nil in Hc. }
  unfold matches in *. rewrite dict_keys_set_notin by done.
  rewrite List.filter_app, Hms. simpl. by rewrite HA, HB.
Qed.

Lemma dispatch_single reg A B type_p type_q fn :
  cands reg A B = [(type_p, type_q)] →
  dict_get reg (type_p, type_q) = Some fn →
  dispatch reg A B = Ok (Fun fn, []).
Proof.
  intros Hms Hget. unfold _dispatch_kl. rewrite Hms. simpl.
  unfold getitem. rewrite Hget. simpl.
  by rewrite bool_decide_eq_false_2 by (intros Hc; by apply Hc).
Qed.

(** C7: on a coherent cache, a query without candidates fails and leaves
    [NotImplemented] in the cache under its exact pair; any registration
    afterwards empties the cache; and once a rule matching the query has been
    registered, the same query is answered by the function of that rule,
    which is then what the cache holds. *)
Theorem unresolved_then_registered p q s type_p type_q fn :
  memo_coherent issubclass __name__ s →
  cands (_KL_REGISTRY s) (type p) (type q) = [] →
  issubclass (type p) type_p = true →
  issubclass (type q) type_q = true →
  (kl p q s).1.1 = Raise (NotImplementedError []) ∧
  _KL_MEMOIZE (kl p q s).1.2 !! (type p, type q) = Some NotImplemented ∧
  (∀ tp tq f, _KL_MEMOIZE (decorator tp tq f (kl p q s).1.2).2 = ∅) ∧
  _KL_MEMOIZE (decorator type_p type_q fn (kl p q s).1.2).2
    !! (type p, type q) = None ∧
  (kl p q (decorator type_p type_q fn (kl p q s).1.2).2).1.1
    = Ok (call fn p q) ∧
  _KL_MEMOIZE (kl p q (decorator type_p type_q fn (kl p q s).1.2).2).1.2
    !! (type p, type q) = Some (Fun fn).
Proof.
  intros Hco Hms Hp Hq. pose proof (dispatch_no_match _ _ _ Hms) as Hd.
  destruct (kl_resolved p q s _ _ Hco Hd) as [Hout Hmemo].
  destruct (kl_coherent p q s Hco) as [_ Hreg].
  set (s1 := (kl p q s).1.2) in *.
  pose proof (decorator_coherent s1 type_p type_q fn) as Hco2.
  set (s2 := (decorator type_p type_q fn s1).2) in *.
  assert (dispatch (_KL_REGISTRY s2) (type p) (type q) = Ok (Fun fn, []))
    as Hd2.
  { apply (dispatch_single _ _ _ type_p type_q).
    - simpl. rewrite Hreg. by apply matches_first_rule.
    - apply dict_get_set_eq. }
  destruct (kl_resolved p q s2 _ _ Hco2 Hd2) as [Hout2 Hmemo2].
  split_and!; done.
Qed.

(** *** The guards of [register_kl] *)

(** A class passes both guards, whatever its bases. *)
Lemma register_kl_class (type_p type_q : cls) :
  register_kl issubclass Distribution __name__ (handler := handler)
    (PyType type_p) (PyType type_q)
  = Ok (decorator type_p type_q).
Proof. reflexivity. Qed.

(** An object that is not a class is rejected by the builtin [issubclass]. *)
Lemma register_kl_other (str : string) (type_q : pyobj) :
  register_kl issubclass Distribution __name__ (handler := handler)
    (PyOther str) type_q
  = Raise (TypeError "issubclass() arg 1 must be a class").
Proof. reflexivity. Qed.

End properties.

(** ** More on the dictionaries *)

Section dict_more.
Context {K V : Type} `{EqDecision K}.
Implicit Types (d : list (K * V)) (k : K) (v : V).

Lemma dict_set_notin d k v : k ∉ dict_keys d → dict_set d k v = d ++ [(k, v)].
Proof.
  unfold dict_keys. induction d as [|[k' v'] d IH]; simpl; [done|].
  intros Hin. apply not_elem_of_cons in Hin as [Hne Hin].
  rewrite decide_False by done. f_equal. by apply IH.
Qed.

Lemma dict_set_same d k v : dict_get d k = Some v → dict_set d k v = d.
Proof.
  induction d as [|[k' v'] d IH]; simpl; [done|].
  destruct (decide (k = k')) as [->|Hne]; intros Hg.
  - by simplify_eq.
  - f_equal. by apply IH.
Qed.

Lemma dict_keys_set_elem d k v k' :
  k' ∈ dict_keys (dict_set d k v) ↔ k' = k ∨ k' ∈ dict_keys d.
Proof.
  destruct (decide (k ∈ dict_keys d)) as [Hin|Hin].
  - rewrite dict_keys_set_in by done. split; [by right|].
    intros [->|?]; done.
  - rewrite dict_keys_set_notin by done. rewrite elem_of_app.
    rewrite list_elem_of_singleton. tauto.
Qed.

(** Without duplicate keys, looking a key up finds the one item with it. *)
Lemma dict_get_elem d k v :
  NoDup (dict_keys d) → dict_get d k = Some v ↔ (k, v) ∈ d.
Proof.
  unfold dict_keys. induction d as [|[k' v'] d IH]; simpl; intros Hnd.
  - split; [done|]. intros Hin. by apply elem_of_nil in Hin.
  - apply NoDup_cons in Hnd as [Hk' Hnd].
    rewrite elem_of_cons. destruct (decide (k = k')) as [->|Hne].
    + split.
      * intros ?. simplify_eq. by left.
      * intros [?|Hin]; [by simplify_eq|].
        exfalso. apply Hk'. apply list_elem_of_fmap. by exists (k', v).
    + rewrite IH by done. split; [by right|].
      intros [?|?]; [by simplify_eq|done].
Qed.

Lemma dict_get_Permutation d d' k :
  d ≡ₚ d' → NoDup (dict_keys d) → dict_get d' k = dict_get d k.
Proof.
  intros Hp Hnd.
  assert (NoDup (dict_keys d')) as Hnd'.
  { unfold dict_keys in *. by rewrite <- Hp. }
  destruct (dict_get d k) as [v|] eqn:Hg.
  - apply dict_get_elem; [done|]. rewrite <- Hp. by apply dict_get_elem.
  - destruct (dict_get d' k) as [v'|] eqn:Hg'; [|done].
    apply dict_get_elem in Hg'; [|done]. rewrite <- Hp in Hg'.
    apply dict_get_elem in Hg'; [|done]. congruence.
Qed.

(** A run of assignments to new, distinct keys appends them in order. *)
Lemma foldl_dict_set_fresh (l d : list (K * V)) :
  NoDup (dict_keys (d ++ l)) →
  foldl (λ acc kv, dict_set acc kv.1 kv.2) d l = d ++ l.
Proof.
  revert d. induction l as [|[k v] l IH]; intros d Hnd; simpl.
  - by rewrite app_nil_r.
  - assert (k ∉ dict_keys d) as Hk.
    { unfold dict_keys in *. rewrite fmap_app in Hnd. simpl in Hnd.
      apply NoDup_app in Hnd as (_ & Hdisj & _). intros Hin.
      apply (Hdisj k Hin). apply list_elem_of_here. }
    rewrite dict_set_notin by done. rewrite IH.
    + by rewrite <- app_assoc.
    + by rewrite <- app_assoc.
Qed.
End dict_more.

(** ** The resolver under single inheritance *)

Section resolver.
Context {cls : Type} `{Countable cls}.
Variable issubclass : cls → cls → bool.
Variable __name__ : cls → string.
Context {handler : Type} `{EqDecision handler}.
Context {instance value : Type}.
Variable type : instance → cls.
Variable call : handler → instance → instance → value.

(** [issubclass] is a partial order, and with single inheritance the
    superclasses of a class form a chain. *)
Hypothesis issubclass_refl : ∀ x, issubclass x x = true.
Hypothesis issubclass_antisym :
  ∀ x y, issubclass x y = true → issubclass y x = true → x = y.
Hypothesis issubclass_trans :
  ∀ x y z, issubclass x y = true → issubclass y z = true →
           issubclass x z = true.
Hypothesis issubclass_chain :
  ∀ x y z, issubclass x y = true → issubclass x z = true →
           issubclass y z = true ∨ issubclass z y = true.

Abbreviation le := (_Match__le__ issubclass).
Abbreviation lt := (_Match__lt__ issubclass).
Abbreviation pmin := (py_min issubclass).
Abbreviation lmin := (left_min issubclass).
Abbreviation rmin := (right_min issubclass).
Abbreviation cands := (matches issubclass).
Abbreviation dispatch := (_dispatch_kl issubclass __name__).
Abbreviation lookup_fun := (memoized_lookup issubclass __name__).
Abbreviation kl := (kl_divergence issubclass __name__ type call).
Abbreviation coherent := (memo_coherent issubclass __name__).

Implicit Types (reg : registry (cls := cls) (handler := handler)).
Implicit Types (s : engine (cls := cls) (handler := handler)).
Implicit Types (A B : cls) (m : _Match (cls := cls)).

(** *** The comparison as an order on pairs *)

Lemma le_pair_true p1 q1 p2 q2 :
  le (Match_ [p1; q1]) (Match_ [p2; q2]) = true ↔
  issubclass p1 p2 = true ∧ (p1 = p2 → issubclass q1 q2 = true).
Proof.
  rewrite (le_pair issubclass), andb_true_iff, orb_true_iff, negb_true_iff.
  rewrite bool_decide_eq_false. split.
  - intros [Hp [Hne|Hq]]; split; done.
  - intros [Hp Hq]. split; [done|].
    destruct (decide (p1 = p2)) as [Heq|Hne]; [right; by apply Hq | by left].
Qed.

Lemma le_refl m : le m m = true.
Proof.
  destruct m as [ts]. unfold _Match__le__. simpl.
  induction ts as [|t ts IH]; simpl; [done|].
  rewrite issubclass_refl. simpl. by rewrite bool_decide_eq_true_2.
Qed.

Lemma le_pair_antisym p1 q1 p2 q2 :
  le (Match_ [p1; q1]) (Match_ [p2; q2]) = true →
  le (Match_ [p2; q2]) (Match_ [p1; q1]) = true →
  (p1, q1) = (p2, q2).
Proof.
  rewrite !le_pair_true. intros [Hp Hq] [Hp' Hq'].
  assert (p1 = p2) as -> by (by apply issubclass_antisym).
  f_equal. apply issubclass_antisym; [by apply Hq | by apply Hq'].
Qed.

Lemma le_pair_trans p1 q1 p2 q2 p3 q3 :
  le (Match_ [p1; q1]) (Match_ [p2; q2]) = true →
  le (Match_ [p2; q2]) (Match_ [p3; q3]) = true →
  le (Match_ [p1; q1]) (Match_ [p3; q3]) = true.
Proof.
  rewrite !le_pair_true. intros [Hp Hq] [Hp' Hq']. split.
  - by eapply issubclass_trans.
  - intros ->. assert (p3 = p2) as -> by (by apply issubclass_antisym).
    eapply issubclass_trans; [by apply Hq | by apply Hq'].
Qed.

(** Two pairs that both cover one query are comparable. *)
Lemma le_pair_total A B p1 q1 p2 q2 :
  issubclass A p1 = true → issubclass B q1 = true →
  issubclass A p2 = true → issubclass B q2 = true →
  le (Match_ [p1; q1]) (Match_ [p2; q2]) = true ∨
  le (Match_ [p2; q2]) (Match_ [p1; q1]) = true.
Proof.
  intros HA1 HB1 HA2 HB2. rewrite !le_pair_true.
  destruct (decide (p1 = p2)) as [->|Hne].
  - destruct (issubclass_chain B q1 q2 HB1 HB2) as [Hq|Hq].
    + left. by rewrite issubclass_refl.
    + right. by rewrite issubclass_refl.
  - destruct (issubclass_chain A p1 p2 HA1 HA2) as [Hp|Hp].
    + left. split; [done|]. intros ?. done.
    + right. split; [done|]. intros ?. by subst.
Qed.

(** *** [min] returns a lower bound *)

(** On a list whose items are pairwise comparable under a transitive
    comparison, [min] returns an item below all of them. *)
Lemma foldl_min_step_lower (S : _Match → Prop) x xs :
  (∀ y z, S y → S z → le y z = true ∨ le z y = true) →
  (∀ y z w, S y → S z → S w → le y z = true → le z w = true → le y w = true) →
  (∀ y, y ∈ x :: xs → S y) →
  ∀ y, y ∈ x :: xs → le (foldl (min_step issubclass) x xs) y = true.
Proof.
  intros Htot Htrans. revert x.
  induction xs as [|z zs IH]; intros x HS y Hy; simpl.
  - apply elem_of_cons in Hy as [->|Hy]; [apply le_refl|].
    by apply elem_of_nil in Hy.
  - set (x' := min_step issubclass x z).
    assert (x' ∈ [x; z]) as Hx'.
    { unfold x', min_step. destruct (lt z x).
      - apply list_elem_of_further, list_elem_of_here.
      - apply list_elem_of_here. }
    assert (S x) as HSx by (apply HS, list_elem_of_here).
    assert (S z) as HSz by (apply HS, list_elem_of_further, list_elem_of_here).
    assert (S x') as HSx'.
    { apply elem_of_cons in Hx' as [->|Hx']; [done|].
      apply list_elem_of_singleton in Hx' as ->. done. }
    assert (le x' x = true ∧ le x' z = true) as [Hx'x Hx'z].
    { unfold x', min_step, _Match__lt__, _Match__eq__.
      destruct (le z x) eqn:Hzx; simpl.
      - destruct (bool_decide (types z = types x)) eqn:Heq; simpl.
        + apply bool_decide_eq_true in Heq.
          assert (z = x) as -> by (destruct z, x; simpl in *; congruence).
          split; apply le_refl.
        + split; [done | apply le_refl].
      - split; [apply le_refl|].
        destruct (Htot x z HSx HSz) as [?|?]; [done | congruence]. }
    assert (∀ w, w ∈ x' :: zs → S w) as HS'.
    { intros w Hw. apply elem_of_cons in Hw as [->|Hw]; [done|].
      by apply HS, list_elem_of_further, list_elem_of_further. }
    pose proof (IH x' HS') as Hlow.
    assert (S (foldl (min_step issubclass) x' zs)) as HSr
      by (apply HS', foldl_min_step_elem).
    apply elem_of_cons in Hy as [->|Hy].
    { apply (Htrans _ x'); try done. apply Hlow, list_elem_of_here. }
    apply elem_of_cons in Hy as [->|Hy].
    { apply (Htrans _ x'); try done. apply Hlow, list_elem_of_here. }
    by apply Hlow, list_elem_of_further.
Qed.

Lemma py_min_lower A B (l : list _Match) r :
  (∀ y, y ∈ l → ∃ p q, y = Match_ [p; q] ∧
                       issubclass A p = true ∧ issubclass B q = true) →
  pmin l = Ok r → ∀ y, y ∈ l → le r y = true.
Proof.
  intros HS Hmin. destruct l as [|x xs]; [done|]. simpl in Hmin.
  injection Hmin as <-.
  apply (foldl_min_step_lower
           (λ y, ∃ p q, y = Match_ [p; q] ∧
                        issubclass A p = true ∧ issubclass B q = true));
    [| |done].
  - intros y z (p1 & q1 & -> & ? & ?) (p2 & q2 & -> & ? & ?).
    by apply (le_pair_total A B).
  - intros y z w (p1 & q1 & -> & _) (p2 & q2 & -> & _) (p3 & q3 & -> & _).
    apply le_pair_trans.
Qed.

Lemma lmin_elem (ms : list (cls * cls)) p q :
  lmin ms = Ok (Match_ [p; q]) → (p, q) ∈ ms.
Proof.
  intros Hl. destruct (left_min_Ok issubclass ms) as (p' & q' & Hl' & Hin).
  { intros ->. done. }
  rewrite Hl in Hl'. by simplify_eq.
Qed.

Lemma rmin_elem (ms : list (cls * cls)) p q :
  rmin ms = Ok (Match_ [q; p]) → (p, q) ∈ ms.
Proof.
  intros Hr. destruct (right_min_Ok issubclass ms) as (p' & q' & Hr' & Hin).
  { intros ->. done. }
  rewrite Hr in Hr'. by simplify_eq.
Qed.

Lemma lmin_lower A B (ms : list (cls * cls)) lp lq :
  (∀ p q, (p, q) ∈ ms → issubclass A p = true ∧ issubclass B q = true) →
  lmin ms = Ok (Match_ [lp; lq]) →
  ∀ p q, (p, q) ∈ ms → le (Match_ [lp; lq]) (Match_ [p; q]) = true.
Proof.
  intros Hcov Hl p q Hin. unfold left_min in Hl.
  apply (py_min_lower A B _ _) with (y := Match_ [p; q]) in Hl; [done| |].
  - intros y Hy. apply list_elem_of_fmap in Hy as ([p' q'] & -> & Hin').
    exists p', q'. split; [done|]. by apply Hcov.
  - apply list_elem_of_fmap. by exists (p, q).
Qed.

Lemma rmin_lower A B (ms : list (cls * cls)) rp rq :
  (∀ p q, (p, q) ∈ ms → issubclass A p = true ∧ issubclass B q = true) →
  rmin ms = Ok (Match_ [rq; rp]) →
  ∀ p q, (p, q) ∈ ms → le (Match_ [rq; rp]) (Match_ [q; p]) = true.
Proof.
  intros Hcov Hr p q Hin. unfold right_min in Hr.
  apply (py_min_lower B A _ _) with (y := Match_ [q; p]) in Hr; [done| |].
  - intros y Hy. apply list_elem_of_fmap in Hy as ([p' q'] & -> & Hin').
    exists q', p'. split; [done|]. destruct (Hcov p' q' Hin'). done.
  - apply list_elem_of_fmap. by exists (p, q).
Qed.

Lemma matches_cover reg A B p q :
  (p, q) ∈ cands reg A B → issubclass A p = true ∧ issubclass B q = true.
Proof. intros Hin. by apply matches_elem in Hin as (_ & ? & ?). Qed.

(** Lists with the same candidates have the same minima. *)
Lemma lmin_same_elements A B (ms ms' : list (cls * cls)) p q p' q' :
  (∀ p q, (p, q) ∈ ms → issubclass A p = true ∧ issubclass B q = true) →
  (∀ k, k ∈ ms' ↔ k ∈ ms) →
  lmin ms = Ok (Match_ [p; q]) → lmin ms' = Ok (Match_ [p'; q']) →
  (p, q) = (p', q').
Proof.
  intros Hcov Hsame Hl Hl'.
  assert (∀ p q, (p, q) ∈ ms' →
                 issubclass A p = true ∧ issubclass B q = true) as Hcov'.
  { intros ? ? Hin. by apply Hcov, Hsame. }
  apply le_pair_antisym.
  - apply (lmin_lower A B ms); [done..|]. by apply Hsame, lmin_elem.
  - apply (lmin_lower A B ms'); [done..|]. by apply Hsame, lmin_elem.
Qed.

Lemma rmin_same_elements A B (ms ms' : list (cls * cls)) p q p' q' :
  (∀ p q, (p, q) ∈ ms → issubclass A p = true ∧ issubclass B q = true) →
  (∀ k, k ∈ ms' ↔ k ∈ ms) →
  rmin ms = Ok (Match_ [q; p]) → rmin ms' = Ok (Match_ [q'; p']) →
  (p, q) = (p', q').
Proof.
  intros Hcov Hsame Hr Hr'.
  assert (∀ p q, (p, q) ∈ ms' →
                 issubclass A p = true ∧ issubclass B q = true) as Hcov'.
  { intros ? ? Hin. by apply Hcov, Hsame. }
  assert ((q, p) = (q', p')) as Heq; [|by simplify_eq].
  apply le_pair_antisym.
  - apply (rmin_lower A B ms); [done..|]. by apply Hsame, rmin_elem.
  - apply (rmin_lower A B ms'); [done..|]. by apply Hsame, rmin_elem.
Qed.

(** *** What the resolver returns *)

(** X1: [_dispatch_kl] never raises (neither [min] on an empty sequence,
    nor the unpacking, nor a registry lookup can fail), and it returns
    [NotImplemented] exactly when no registered pair covers the query, in
    which case it emits no warning. *)
Theorem dispatch_unresolved_iff reg A B :
  (∃ fn ws, _dispatch_kl issubclass __name__ reg A B = Ok (fn, ws)) ∧
  (∀ ws, _dispatch_kl issubclass __name__ reg A B = Ok (NotImplemented, ws) ↔
         ws = [] ∧
         ∀ p q, (p, q) ∈ dict_keys reg →
                ¬ (issubclass A p = true ∧ issubclass B q = true)).
Proof.
  split; [apply dispatch_total|]. intros ws.
  destruct (decide (cands reg A B = [])) as [He|Hne].
  - rewrite (dispatch_no_match _ _ _ _ _ He). split.
    + intros ?. simplify_eq. split; [done|]. intros p q Hk [HA HB].
      assert ((p, q) ∈ cands reg A B) as Hin by (by apply matches_elem).
      rewrite He in Hin. by apply elem_of_nil in Hin.
    + by intros [-> _].
  - destruct (dispatch_selects issubclass __name__ reg A B Hne)
      as (lp & lq & ? & ? & lf & ? & _ & _ & Hlin & _ & _ & _ & ->).
    split; [done|]. intros [_ Hnone]. exfalso.
    apply matches_elem in Hlin as (Hk & HA & HB). by apply (Hnone lp lq).
Qed.

Lemma dispatch_Fun_covering reg A B fn ws :
  dispatch reg A B = Ok (Fun fn, ws) →
  ∃ p q, dict_get reg (p, q) = Some fn ∧
         issubclass A p = true ∧ issubclass B q = true.
Proof.
  intros Hd. destruct (decide (cands reg A B = [])) as [He|Hne].
  { by rewrite (dispatch_no_match _ _ _ _ _ He) in Hd. }
  destruct (dispatch_selects issubclass __name__ reg A B Hne)
    as (lp & lq & ? & ? & lf & ? & _ & _ & Hlin & _ & Hlf & _ & Hd').
  rewrite Hd' in Hd. simplify_eq.
  apply matches_elem in Hlin as (_ & HA & HB). by exists lp, lq.
Qed.

(** X2: a function returned by [_dispatch_kl] is registered under a pair
    that covers the query.  It comes with at most one warning, and a warning
    means that a second covering rule with a different function exists; the
    message names the query and joins the first class of the returned rule
    with the second class of the other. *)
Theorem dispatch_returns_covering_rule reg A B fn ws :
  _dispatch_kl issubclass __name__ reg A B = Ok (Fun fn, ws) →
  ∃ p q,
    dict_get reg (p, q) = Some fn ∧
    issubclass A p = true ∧ issubclass B q = true ∧
    (ws = [] ∨
     ∃ p' q' fn',
       dict_get reg (p', q') = Some fn' ∧ fn' ≠ fn ∧
       issubclass A p' = true ∧ issubclass B q' = true ∧
       ws = [Warning (ambiguity_message __name__ A B p q') RuntimeWarning]).
Proof.
  intros Hd. destruct (decide (cands reg A B = [])) as [He|Hne].
  { by rewrite (dispatch_no_match _ _ _ _ _ He) in Hd. }
  destruct (dispatch_selects issubclass __name__ reg A B Hne)
    as (lp & lq & rp & rq & lf & rf & _ & _ & Hlin & Hrin & Hlf & Hrf & Hd').
  rewrite Hd' in Hd. simplify_eq.
  apply matches_elem in Hlin as (_ & HA & HB).
  apply matches_elem in Hrin as (_ & HA' & HB').
  exists lp, lq. split_and!; try done.
  destruct (decide (fn = rf)) as [->|Hdiff]; [by left|].
  right. exists rp, rq, rf. split_and!; done.
Qed.

(** X3: with single inheritance the left selection is the most specific
    candidate read from the left (its first class is a subclass of every
    candidate's first class and, among the candidates sharing it, its second
    class is the most specific), and the right selection is the same with
    the two positions exchanged. *)
Theorem selections_most_specific reg A B lp lq rp rq :
  left_min issubclass (matches issubclass reg A B) = Ok (Match_ [lp; lq]) →
  right_min issubclass (matches issubclass reg A B) = Ok (Match_ [rq; rp]) →
  ∀ p q, (p, q) ∈ matches issubclass reg A B →
    issubclass lp p = true ∧ (lp = p → issubclass lq q = true) ∧
    issubclass rq q = true ∧ (rq = q → issubclass rp p = true).
Proof.
  intros Hl Hr p q Hin.
  pose proof (lmin_lower A B _ _ _ (matches_cover reg A B) Hl p q Hin) as Hlow.
  pose proof (rmin_lower A B _ _ _ (matches_cover reg A B) Hr p q Hin) as Hlow'.
  apply le_pair_true in Hlow as [? ?]. apply le_pair_true in Hlow' as [? ?].
  done.
Qed.

Lemma componentwise_least_dispatch reg A B p0 q0 fn :
  dict_get reg (p0, q0) = Some fn →
  issubclass A p0 = true → issubclass B q0 = true →
  (∀ p q, (p, q) ∈ cands reg A B →
          issubclass p0 p = true ∧ issubclass q0 q = true) →
  dispatch reg A B = Ok (Fun fn, []).
Proof.
  intros Hg HA HB Hleast.
  assert ((p0, q0) ∈ cands reg A B) as Hin.
  { apply matches_elem. split_and!; [|done..]. by eapply dict_get_Some_keys. }
  pose proof (exact_pair_least issubclass issubclass_antisym
                (cands reg A B) p0 q0 false Hleast Hin) as Hl.
  pose proof (exact_pair_least issubclass issubclass_antisym
                (cands reg A B) p0 q0 true Hleast Hin) as Hr.
  destruct (dispatch_selects issubclass __name__ reg A B)
    as (lp & lq & rp & rq & lf & rf & Hl' & Hr' & _ & _ & Hlf & Hrf & ->).
  { intros He. rewrite He in Hin. by apply elem_of_nil in Hin. }
  unfold left_min in Hl'. unfold right_min in Hr'.
  rewrite Hl in Hl'. rewrite Hr in Hr'. simplify_eq.
  by rewrite decide_True.
Qed.

(** X5: a registered pair that covers the query and is, class by class, a
    subclass of every candidate is what the resolver returns, without a
    warning. *)
Theorem most_specific_rule_wins reg A B p0 q0 fn :
  dict_get reg (p0, q0) = Some fn →
  issubclass A p0 = true → issubclass B q0 = true →
  (∀ p q, (p, q) ∈ matches issubclass reg A B →
          issubclass p0 p = true ∧ issubclass q0 q = true) →
  _dispatch_kl issubclass __name__ reg A B = Ok (Fun fn, []).
Proof. apply componentwise_least_dispatch. Qed.

(** X4: with single inheritance the order of the registry does not matter:
    two registries with the same rules (and no key twice) give the same
    function and the same warnings for every query. *)
Theorem dispatch_order_irrelevant reg reg' A B :
  reg ≡ₚ reg' →
  NoDup (dict_keys reg) →
  _dispatch_kl issubclass __name__ reg' A B
  = _dispatch_kl issubclass __name__ reg A B.
Proof.
  intros Hp Hnd.
  assert (∀ k, k ∈ cands reg' A B ↔ k ∈ cands reg A B) as Hsame.
  { intros [p q]. rewrite !matches_elem. unfold dict_keys. by rewrite Hp. }
  destruct (decide (cands reg A B = [])) as [He|Hne].
  - assert (cands reg' A B = []) as He'.
    { destruct (cands reg' A B) as [|k ks] eqn:Hc; [done|].
      assert (k ∈ cands reg A B) as Hin by (apply Hsame, list_elem_of_here).
      rewrite He in Hin. by apply elem_of_nil in Hin. }
    by rewrite !dispatch_no_match.
  - assert (cands reg' A B ≠ []) as Hne'.
    { intros He'. destruct (cands reg A B) as [|k ks] eqn:Hc; [done|].
      assert (k ∈ cands reg' A B) as Hin by (apply Hsame, list_elem_of_here).
      rewrite He' in Hin. by apply elem_of_nil in Hin. }
    destruct (dispatch_selects issubclass __name__ reg A B Hne)
      as (lp & lq & rp & rq & lf & rf & Hl & Hr & _ & _ & Hlf & Hrf & ->).
    destruct (dispatch_selects issubclass __name__ reg' A B Hne')
      as (lp' & lq' & rp' & rq' & lf' & rf' & Hl' & Hr' & _ & _ & Hlf' & Hrf'
          & ->).
    pose proof (lmin_same_elements A B _ _ _ _ _ _
                  (matches_cover reg A B) Hsame Hl Hl') as Heql.
    pose proof (rmin_same_elements A B _ _ _ _ _ _
                  (matches_cover reg A B) Hsame Hr Hr') as Heqr.
    simplify_eq.
    rewrite (dict_get_Permutation _ _ _ Hp Hnd) in Hlf'.
    rewrite (dict_get_Permutation _ _ _ Hp Hnd) in Hrf'.
    by simplify_eq.
Qed.

Lemma matches_dict_set_elem reg A B p q fn p' q' :
  (p', q') ∈ cands (dict_set reg (p, q) fn) A B →
  (p', q') ∈ cands reg A B ∨ (p', q') = (p, q).
Proof.
  rewrite !matches_elem, dict_keys_set_elem. intros ([?|?] & ? & ?); auto.
Qed.

(** X6: with single inheritance, registering a function under the pair the
    warning suggests, the first class of the left selection with the second
    class of the right selection, settles the query: from then on the
    resolver returns that function without a warning. *)
Theorem registering_suggestion_resolves reg A B lp lq rp rq fn :
  left_min issubclass (matches issubclass reg A B) = Ok (Match_ [lp; lq]) →
  right_min issubclass (matches issubclass reg A B) = Ok (Match_ [rq; rp]) →
  _dispatch_kl issubclass __name__ (dict_set reg (lp, rq) fn) A B
  = Ok (Fun fn, []).
Proof.
  intros Hl Hr.
  destruct (matches_cover reg A B lp lq (lmin_elem _ _ _ Hl)) as [HA _].
  destruct (matches_cover reg A B rp rq (rmin_elem _ _ _ Hr)) as [_ HB].
  apply (componentwise_least_dispatch _ A B lp rq); [apply dict_get_set_eq|done..|].
  intros p q Hin. apply matches_dict_set_elem in Hin as [Hin|?].
  - pose proof (lmin_lower A B _ _ _ (matches_cover reg A B) Hl p q Hin) as H1.
    pose proof (rmin_lower A B _ _ _ (matches_cover reg A B) Hr p q Hin) as H2.
    apply le_pair_true in H1 as [? _]. apply le_pair_true in H2 as [? _].
    done.
  - simplify_eq. by rewrite !issubclass_refl.
Qed.

(** X8: registering a rule does not change what the resolver returns for a
    query that the new pair does not cover. *)
Theorem register_uncovered_query reg A B p q fn :
  issubclass A p && issubclass B q = false →
  _dispatch_kl issubclass __name__ (dict_set reg (p, q) fn) A B
  = _dispatch_kl issubclass __name__ reg A B.
Proof.
  intros Hun.
  assert (cands (dict_set reg (p, q) fn) A B = cands reg A B) as Hms.
  { unfold matches. destruct (decide ((p, q) ∈ dict_keys reg)) as [Hin|Hin].
    - by rewrite dict_keys_set_in.
    - rewrite dict_keys_set_notin by done. rewrite List.filter_app. simpl.
      rewrite Hun. by rewrite app_nil_r. }
  destruct (decide (cands reg A B = [])) as [He|Hne].
  { rewrite !dispatch_no_match; [done..|]. by rewrite Hms. }
  assert (∀ p' q', (p', q') ∈ cands reg A B → (p, q) ≠ (p', q')) as Hother.
  { intros p' q' Hin ?. simplify_eq. apply matches_cover in Hin as [HA HB].
    by rewrite HA, HB in Hun. }
  destruct (dispatch_selects issubclass __name__ reg A B Hne)
    as (lp & lq & rp & rq & lf & rf & Hl & Hr & Hlin & Hrin & Hlf & Hrf & ->).
  destruct (dispatch_selects issubclass __name__ (dict_set reg (p, q) fn) A B)
    as (lp' & lq' & rp' & rq' & lf' & rf' & Hl' & Hr' & _ & _ & Hlf' & Hrf'
        & ->).
  { by rewrite Hms. }
  rewrite Hms, Hl in Hl'. rewrite Hms, Hr in Hr'. simplify_eq.
  rewrite dict_get_set_ne in Hlf' by (by apply Hother).
  rewrite dict_get_set_ne in Hrf' by (by apply Hother).
  by simplify_eq.
Qed.

(** X11: on pairs, [__le__] is reflexive, antisymmetric and transitive, and
    with single inheritance any two pairs that cover the same query are
    comparable; so on the candidates of a query it is a total order. *)
Theorem Match_le_orders_candidates :
  (∀ m, _Match__le__ issubclass m m = true) ∧
  (∀ p1 q1 p2 q2,
     _Match__le__ issubclass (Match_ [p1; q1]) (Match_ [p2; q2]) = true →
     _Match__le__ issubclass (Match_ [p2; q2]) (Match_ [p1; q1]) = true →
     (p1, q1) = (p2, q2)) ∧
  (∀ p1 q1 p2 q2 p3 q3,
     _Match__le__ issubclass (Match_ [p1; q1]) (Match_ [p2; q2]) = true →
     _Match__le__ issubclass (Match_ [p2; q2]) (Match_ [p3; q3]) = true →
     _Match__le__ issubclass (Match_ [p1; q1]) (Match_ [p3; q3]) = true) ∧
  (∀ A B p1 q1 p2 q2,
     issubclass A p1 = true → issubclass B q1 = true →
     issubclass A p2 = true → issubclass B q2 = true →
     _Match__le__ issubclass (Match_ [p1; q1]) (Match_ [p2; q2]) = true ∨
     _Match__le__ issubclass (Match_ [p2; q2]) (Match_ [p1; q1]) = true).
Proof.
  split_and!.
  - apply le_refl.
  - apply le_pair_antisym.
  - apply le_pair_trans.
  - apply le_pair_total.
Qed.

(** *** Registrations and the facade *)

(** X7: registering once more a function under the pair it is already
    registered under leaves the registry as it is; only the cache is
    emptied, and on a coherent cache every call of the facade has the same
    outcome after the registration as before. *)
Theorem reregister_same_rule s type_p type_q fn :
  dict_get (_KL_REGISTRY s) (type_p, type_q) = Some fn →
  (decorator type_p type_q fn s).2 = Engine (_KL_REGISTRY s) ∅ ∧
  (memo_coherent issubclass __name__ s →
   ∀ p q, (kl p q (decorator type_p type_q fn s).2).1.1 = (kl p q s).1.1).
Proof.
  intros Hg. unfold decorator. simpl. rewrite (dict_set_same _ _ _ Hg).
  split; [done|]. intros Hco p q.
  destruct (dispatch_total issubclass __name__ (_KL_REGISTRY s) (type p) (type q))
    as (f & ws & Hd).
  destruct (kl_resolved issubclass __name__ type call p q s f ws Hco Hd)
    as [-> _].
  by destruct (kl_resolved issubclass __name__ type call p q
                 (Engine (_KL_REGISTRY s) ∅) f ws
                 (empty_memo_coherent _ _ _) Hd) as [-> _].
Qed.

(** X10: calling the facade a second time with the same arguments is a pure
    cache hit: the outcome is the same, the state does not change any more,
    and no warning is emitted again. *)
Theorem kl_divergence_again p q s :
  kl_divergence issubclass __name__ type call p q
    (kl_divergence issubclass __name__ type call p q s).1.2
  = ((kl_divergence issubclass __name__ type call p q s).1.1,
     (kl_divergence issubclass __name__ type call p q s).1.2,
     []).
Proof.
  destruct (lookup_fun_frame issubclass __name__ s (type p) (type q))
    as (fn & s' & ws & Hl & _ & Hm & _).
  rewrite (kl_of_lookup _ _ _ _ _ _ _ _ _ _ Hl). simpl.
  by rewrite (kl_of_lookup _ _ _ _ _ _ _ _ _ _
                (lookup_fun_hit _ _ _ _ _ _ Hm)).
Qed.

(** X12: on a coherent cache the facade has two outcomes only.  Either no
    registered pair covers the classes of the arguments and it raises the
    bare [NotImplementedError], or it returns the result of a function
    registered under a covering pair. *)
Theorem kl_divergence_outcome p q s :
  memo_coherent issubclass __name__ s →
  (matches issubclass (_KL_REGISTRY s) (type p) (type q) = [] ∧
   (kl p q s).1.1 = Raise (NotImplementedError [])) ∨
  (∃ fn tp tq,
     dict_get (_KL_REGISTRY s) (tp, tq) = Some fn ∧
     issubclass (type p) tp = true ∧ issubclass (type q) tq = true ∧
     (kl p q s).1.1 = Ok (call fn p q)).
Proof.
  intros Hco.
  destruct (dispatch_total issubclass __name__ (_KL_REGISTRY s) (type p) (type q))
    as (f & ws & Hd).
  destruct (kl_resolved issubclass __name__ type call p q s f ws Hco Hd)
    as [-> _].
  destruct f as [|fn].
  - left. split; [|done].
    destruct (decide (cands (_KL_REGISTRY s) (type p) (type q) = []))
      as [He|Hne]; [done|].
    destruct (dispatch_selects issubclass __name__ _ _ _ Hne)
      as (? & ? & ? & ? & ? & ? & _ & _ & _ & _ & _ & _ & Hd').
    rewrite Hd' in Hd. done.
  - right.
    destruct (dispatch_Fun_covering _ _ _ _ _ Hd) as (tp & tq & Hg & HA & HB).
    by exists fn, tp, tq.
Qed.

(** X9: in every state that registrations and facade calls lead to from the
    state at import time, no key occurs twice in the registry, and every
    cache entry is what the resolver computes on the current registry: a
    cached function is registered under a pair covering the cached key, and
    a cached [NotImplemented] means that no registered pair covers it. *)
Theorem reachable_state_invariant s :
  reachable issubclass __name__ type call s →
  NoDup (dict_keys (_KL_REGISTRY s)) ∧
  memo_coherent issubclass __name__ s ∧
  (∀ A B fn,
     _KL_MEMOIZE s !! (A, B) = Some (Fun fn) →
     ∃ p q, dict_get (_KL_REGISTRY s) (p, q) = Some fn ∧
            issubclass A p = true ∧ issubclass B q = true) ∧
  (∀ A B,
     _KL_MEMOIZE s !! (A, B) = Some NotImplemented →
     matches issubclass (_KL_REGISTRY s) A B = []).
Proof.
  intros Hr. pose proof (reachable_coherent _ _ _ _ _ Hr) as Hco.
  split_and!; [by eapply reachable_NoDup|done| |].
  - intros A B fn Hm. destruct (Hco _ _ _ Hm) as [ws Hd].
    destruct (dispatch_Fun_covering _ _ _ _ _ Hd) as (p & q & ? & ? & ?).
    by exists p, q.
  - intros A B Hm. destruct (Hco _ _ _ Hm) as [ws Hd].
    destruct (decide (cands (_KL_REGISTRY s) A B = [])) as [He|Hne]; [done|].
    destruct (dispatch_selects issubclass __name__ _ _ _ Hne)
      as (? & ? & ? & ? & ? & ? & _ & _ & _ & _ & _ & _ & Hd').
    rewrite Hd' in Hd. done.
Qed.

(** X13: a registration never turns a query that resolves to a function
    into one that fails: whatever is registered afterwards, the resolver
    still returns a function for it. *)
Theorem registration_keeps_resolved reg A B p q fn gn ws :
  _dispatch_kl issubclass __name__ reg A B = Ok (Fun fn, ws) →
  ∃ fn' ws',
    _dispatch_kl issubclass __name__ (dict_set reg (p, q) gn) A B
    = Ok (Fun fn', ws').
Proof.
  intros Hd.
  assert (cands reg A B ≠ []) as Hne.
  { intros He. by rewrite (dispatch_no_match _ _ _ _ _ He) in Hd. }
  destruct (left_min_Ok issubclass _ Hne) as (lp & lq & _ & Hin).
  assert ((lp, lq) ∈ cands (dict_set reg (p, q) gn) A B) as Hin'.
  { apply matches_elem in Hin as (Hk & HA & HB). apply matches_elem.
    split_and!; [|done..]. apply dict_keys_set_elem. by right. }
  destruct (dispatch_selects issubclass __name__ (dict_set reg (p, q) gn) A B)
    as (? & ? & ? & ? & lf & ? & _ & _ & _ & _ & _ & _ & ->).
  { intros He. rewrite He in Hin'. by apply elem_of_nil in Hin'. }
  by eexists _, _.
Qed.

End resolver.

(** ** The catalogue *)

Section catalog_facts.
Context {cls : Type} `{Countable cls}.
Variable issubclass : cls → cls → bool.
Variable Distribution : cls.
Variable __name__ : cls → string.
Variable class_of : Catalog.family → cls.
Context {instance value : Type}.
Variable type : instance → cls.
Variable call : Catalog.kl_function → instance → instance → value.

(** Different imported names are different classes. *)
Hypothesis class_of_inj : ∀ F G, class_of F = class_of G → F = G.
Hypothesis issubclass_refl : ∀ x, issubclass x x = true.
Hypothesis issubclass_antisym :
  ∀ x y, issubclass x y = true → issubclass y x = true → x = y.

Abbreviation kl := (kl_divergence issubclass __name__ type call).
Abbreviation catalog := (Catalog.catalog_registry class_of).
Abbreviation import_kl :=
  (Catalog.import_kl issubclass Distribution __name__ class_of).

Lemma registrations_NoDup : NoDup (dict_keys Catalog.registrations).
Proof. apply (bool_decide_unpack _). by vm_compute. Qed.

Lemma catalog_keys :
  dict_keys catalog = prod_map class_of class_of <$> dict_keys Catalog.registrations.
Proof.
  unfold Catalog.catalog_registry, dict_keys. rewrite <- !list_fmap_compose.
  apply list_fmap_ext. by intros _ [[F G] fn] _.
Qed.

Lemma catalog_NoDup : NoDup (dict_keys catalog).
Proof.
  rewrite catalog_keys. apply NoDup_fmap_2; [|apply registrations_NoDup].
  intros [F G] [F' G'] Heq. unfold prod_map in Heq. simpl in Heq.
  injection Heq as HF HG. f_equal; by apply class_of_inj.
Qed.

Lemma catalog_get F G :
  dict_get catalog (class_of F, class_of G)
  = dict_get Catalog.registrations (F, G).
Proof.
  unfold Catalog.catalog_registry.
  induction Catalog.registrations as [|[[F' G'] fn] rs IH]; simpl; [done|].
  destruct (decide ((F, G) = (F', G'))) as [Heq|Hne].
  - simplify_eq. by rewrite decide_True.
  - rewrite decide_False; [done|]. intros Heq. apply Hne.
    injection Heq as HF HG. f_equal; by apply class_of_inj.
Qed.

Lemma register_all_fold d rs :
  Catalog.register_all issubclass Distribution __name__ class_of
    (Engine d ∅) rs
  = Ok (Engine
          (foldl (λ acc kv, dict_set acc kv.1 kv.2) d
             ((λ r : Catalog.family * Catalog.family * Catalog.kl_function,
                 ((class_of r.1.1, class_of r.1.2), r.2)) <$> rs))
          ∅).
Proof.
  revert d. induction rs as [|r rs IH]; intros d; simpl; [done|].
  apply IH.
Qed.

Lemma import_kl_state : import_kl = Ok (Engine catalog ∅).
Proof.
  unfold Catalog.import_kl. rewrite register_all_fold. do 2 f_equal.
  apply (foldl_dict_set_fresh _ []). apply catalog_NoDup.
Qed.

(** X14: importing the module raises nothing and leaves the registry with
    the 59 decorated pairs in the order in which the decorators are applied,
    no pair twice, so that no function of the catalogue is replaced by a
    later one; the cache is empty. *)
Theorem import_kl_registers_all :
  Catalog.import_kl issubclass Distribution __name__ class_of
    = Ok (Engine (Catalog.catalog_registry class_of) ∅) ∧
  length (Catalog.catalog_registry class_of) = 59 ∧
  NoDup (dict_keys (Catalog.catalog_registry class_of)).
Proof.
  split_and!.
  - apply import_kl_state.
  - unfold Catalog.catalog_registry. by rewrite length_fmap.
  - apply catalog_NoDup.
Qed.

Lemma catalog_exact F G fn p q :
  dict_get Catalog.registrations (F, G) = Some fn →
  type p = class_of F → type q = class_of G →
  kl p q (Engine catalog ∅)
  = (Ok (call fn p q),
     Engine catalog (<[(class_of F, class_of G) := Fun fn]> ∅), []).
Proof.
  intros Hg Hp Hq. rewrite <- catalog_get in Hg.
  pose proof (dispatch_exact issubclass __name__ issubclass_refl
                issubclass_antisym _ _ _ _ Hg) as Hd.
  rewrite (kl_of_lookup issubclass __name__ type call p q _ (Fun fn)
             (Engine catalog (<[(class_of F, class_of G) := Fun fn]> ∅)) []);
    [done|].
  rewrite Hp, Hq. by apply lookup_fun_miss.
Qed.

(** X15: once the module is imported, a call of the facade on objects whose
    classes are exactly a decorated pair returns the result of the function
    decorated with that pair and emits no warning, however the imported
    classes inherit from one another. *)
Theorem catalog_exact_pair F G fn p q s :
  Catalog.import_kl issubclass Distribution __name__ class_of = Ok s →
  dict_get Catalog.registrations (F, G) = Some fn →
  type p = class_of F → type q = class_of G →
  (kl p q s).1.1 = Ok (call fn p q) ∧ (kl p q s).2 = [].
Proof.
  intros Himp Hg Hp Hq.
  rewrite import_kl_state in Himp.
  injection Himp as <-. by rewrite (catalog_exact F G fn).
Qed.



End catalog_facts.

(** ** The engine on the concrete classes *)

Import Classes.

Local Abbreviation sub := Classes.issubclass.
Local Abbreviation dispatch_c := (_dispatch_kl Classes.issubclass Classes.__name__).
Local Abbreviation coherent_c := (memo_coherent Classes.issubclass Classes.__name__).
Local Abbreviation kl_c :=
  (kl_divergence Classes.issubclass Classes.__name__ ob_type Returned).

Lemma sub_refl : ∀ x, sub x x = true.
Proof. intros []; reflexivity. Qed.

Lemma sub_antisym : ∀ x y, sub x y = true → sub y x = true → x = y.
Proof. intros [] []; vm_compute; congruence. Qed.

(** The crossed overrides of the docstring: the left selection is the rule
    with the more specific first class, [(DerivedP, BaseQ)], the right one is
    [(BaseP, DerivedQ)], and the warning suggests [(DerivedP, DerivedQ)]. *)
Lemma crossed_overrides_resolution :
  dispatch_c (_KL_REGISTRY crossed) DerivedP DerivedQ =
    Ok (Fun kl_version2,
        [Warning "Ambiguous kl_divergence(DerivedP, DerivedQ). Please register_kl(DerivedP, DerivedQ)"
                 RuntimeWarning]).
Proof. reflexivity. Qed.

Lemma Match_le_by_position_witness :
  (∀ x, sub x x = true) ∧
  _Match__le__ sub (Match_ [DerivedP; BaseQ]) (Match_ [BaseP; DerivedQ]) = true ∧
  _Match__le__ sub (Match_ [BaseP; DerivedQ]) (Match_ [DerivedP; BaseQ]) = false.
Proof.
  split; [exact sub_refl|].
  destruct (Match_le_by_position sub sub_refl) as (Hnot & Hstrict & _).
  split.
  - apply Hstrict; [reflexivity | discriminate].
  - apply Hnot. reflexivity.
Defined.

Lemma dispatch_warns_iff_selections_differ_witness :
  matches sub (_KL_REGISTRY crossed) DerivedP DerivedQ ≠ [] ∧
  ∃ fn ws, dispatch_c (_KL_REGISTRY crossed) DerivedP DerivedQ = Ok (Fun fn, ws).
Proof.
  assert (matches sub (_KL_REGISTRY crossed) DerivedP DerivedQ ≠ []) as Hne
    by (vm_compute; discriminate).
  split; [exact Hne|].
  destruct (dispatch_warns_iff_selections_differ sub Classes.__name__
              (_KL_REGISTRY crossed) DerivedP DerivedQ Hne)
    as (lp & lq & rp & rq & lf & rf & _ & _ & _ & _ & Hdiff & Hsame).
  destruct (decide (lf = rf)) as [Heq|Hneq].
  - eexists _, _. exact (Hsame Heq).
  - eexists _, _. exact (Hdiff Hneq).
Defined.

Lemma exact_pair_resolves_witness :
  dict_get (_KL_REGISTRY tie_broken) (DerivedP, DerivedQ) = Some kl_version1 ∧
  dispatch_c (_KL_REGISTRY tie_broken) DerivedP DerivedQ
    = Ok (Fun kl_version1, []).
Proof.
  split; [reflexivity|].
  apply (exact_pair_resolves sub Classes.__name__ sub_refl sub_antisym
           (_KL_REGISTRY tie_broken) DerivedP DerivedQ kl_version1).
  reflexivity.
Defined.

Lemma derived_base_specificity_witness :
  sub Normal Distribution = true ∧
  Normal ≠ Distribution ∧
  dispatch_c (_KL_REGISTRY general_and_special) Normal Distribution
    = Ok (Fun kl_normal_normal, []).
Proof.
  split; [reflexivity|]. split; [discriminate|].
  apply (derived_base_specificity sub Classes.__name__ sub_refl sub_antisym
           (_KL_REGISTRY general_and_special) Distribution Normal
           kl_version1 kl_normal_normal);
    [reflexivity | discriminate | reflexivity | reflexivity].
Defined.

Lemma kl_divergence_unresolved_witness :
  coherent_c crossed ∧
  matches sub (_KL_REGISTRY crossed) Normal Normal = [] ∧
  (kl_c (Obj Normal 0) (Obj Normal 1) crossed).1.1
    = Raise (NotImplementedError []).
Proof.
  split; [apply empty_memo_coherent|]. split; [reflexivity|].
  apply (kl_divergence_unresolved sub Classes.__name__ ob_type Returned
           (Obj Normal 0) (Obj Normal 1) crossed);
    [apply empty_memo_coherent | reflexivity].
Defined.

Lemma kl_divergence_deterministic_witness :
  coherent_c crossed ∧
  ∃ fn, ∀ s',
    facade_calls sub Classes.__name__ ob_type Returned crossed s' →
    ∃ s'' ws,
      memoized_lookup sub Classes.__name__ s' DerivedP DerivedQ
        = Ok (fn, s'', ws).
Proof.
  split; [apply empty_memo_coherent|].
  destruct (kl_divergence_deterministic sub Classes.__name__ ob_type Returned
              crossed DerivedP DerivedQ (empty_memo_coherent _ _ _))
    as (fn & _ & Hall).
  exists fn. intros s' Hcalls. by destruct (Hall s' Hcalls) as (_ & ? & _).
Defined.

Lemma register_overrides_witness :
  dict_get (_KL_REGISTRY (decorator DerivedP BaseQ kl_version1 crossed).2)
    (DerivedP, BaseQ) = Some kl_version1 ∧
  (kl_c (Obj DerivedP 0) (Obj BaseQ 1)
     (decorator DerivedP BaseQ kl_version1 crossed).2).1.1
    = Ok (Returned kl_version1 (Obj DerivedP 0) (Obj BaseQ 1)).
Proof.
  destruct (register_overrides sub Classes.__name__ ob_type Returned
              sub_refl sub_antisym crossed DerivedP BaseQ kl_version1)
    as (_ & Hget & _ & _ & _ & Hexact & _).
  split; [exact Hget|].
  apply Hexact; [apply facade_calls_nil | reflexivity | reflexivity].
Defined.

Lemma unresolved_then_registered_witness :
  coherent_c crossed ∧
  matches sub (_KL_REGISTRY crossed) Normal Normal = [] ∧
  (kl_c (Obj Normal 0) (Obj Normal 1) crossed).1.1
    = Raise (NotImplementedError []) ∧
  (kl_c (Obj Normal 0) (Obj Normal 1)
     (decorator Normal Normal kl_normal_normal
        (kl_c (Obj Normal 0) (Obj Normal 1) crossed).1.2).2).1.1
    = Ok (Returned kl_normal_normal (Obj Normal 0) (Obj Normal 1)).
Proof.
  split; [apply empty_memo_coherent|]. split; [reflexivity|].
  destruct (unresolved_then_registered sub Classes.__name__ ob_type Returned
              (Obj Normal 0) (Obj Normal 1) crossed Normal Normal
              kl_normal_normal (empty_memo_coherent _ _ _) eq_refl eq_refl eq_refl)
    as (Hfail & _ & _ & _ & Hok & _).
  split; [exact Hfail | exact Hok].
Defined.

(** C4, as stated, fails: with nothing registered the facade raises a bare
    [NotImplementedError], which names neither class. *)
Lemma unresolved_error_names_no_type :
  coherent_c empty ∧
  matches sub (_KL_REGISTRY empty) Normal Normal = [] ∧
  ¬ fails_naming_types sub Classes.__name__ ob_type Returned
      (Obj Normal 0) (Obj Normal 1) empty.
Proof.
  split; [apply empty_memo_coherent|]. split; [reflexivity|].
  intros (args & Hout & (a & Hin & _) & _).
  destruct (kl_resolved sub Classes.__name__ ob_type Returned
              (Obj Normal 0) (Obj Normal 1) empty NotImplemented []
              (empty_memo_coherent _ _ _) eq_refl) as [Hraise _].
  rewrite Hraise in Hout. injection Hout as <-.
  simpl in Hin. by apply elem_of_nil in Hin.
Qed.

(** C5: [int] is a class but no subclass of [Distribution]; nevertheless
    [register_kl(int, int)] raises nothing and hands back the decorator,
    which puts the rule into the registry. *)
Theorem register_kl_accepts_non_distribution :
  sub int Distribution = false ∧
  register_kl sub Distribution Classes.__name__ (handler := pyfn)
    (PyType int) (PyType int) = Ok (decorator int int) ∧
  _KL_REGISTRY (decorator int int kl_version1 empty).2
    = [((int, int), kl_version1)].
Proof. split_and!; reflexivity. Qed.

(** ** Further instances on the concrete classes *)

Lemma sub_trans : ∀ x y z, sub x y = true → sub y z = true → sub x z = true.
Proof. intros [] [] []; vm_compute; congruence. Qed.

Lemma sub_chain :
  ∀ x y z, sub x y = true → sub x z = true → sub y z = true ∨ sub z y = true.
Proof. intros [] [] []; vm_compute; intros; auto; congruence. Qed.

Lemma crossed_matches :
  matches sub (_KL_REGISTRY crossed) DerivedP DerivedQ
  = [(BaseP, DerivedQ); (DerivedP, BaseQ)].
Proof. reflexivity. Qed.

Lemma dispatch_returns_covering_rule_witness :
  ∃ p q,
    dict_get (_KL_REGISTRY crossed) (p, q) = Some kl_version2 ∧
    sub DerivedP p = true ∧ sub DerivedQ q = true.
Proof.
  destruct (dispatch_returns_covering_rule sub Classes.__name__
              (_KL_REGISTRY crossed) DerivedP DerivedQ kl_version2 _
              crossed_overrides_resolution)
    as (p & q & Hg & HA & HB & _).
  by exists p, q.
Defined.

Lemma selections_most_specific_witness :
  left_min sub (matches sub (_KL_REGISTRY crossed) DerivedP DerivedQ)
    = Ok (Match_ [DerivedP; BaseQ]) ∧
  right_min sub (matches sub (_KL_REGISTRY crossed) DerivedP DerivedQ)
    = Ok (Match_ [DerivedQ; BaseP]) ∧
  sub DerivedP BaseP = true ∧ sub DerivedQ DerivedQ = true.
Proof.
  assert (left_min sub (matches sub (_KL_REGISTRY crossed) DerivedP DerivedQ)
          = Ok (Match_ [DerivedP; BaseQ])) as Hl by reflexivity.
  assert (right_min sub (matches sub (_KL_REGISTRY crossed) DerivedP DerivedQ)
          = Ok (Match_ [DerivedQ; BaseP])) as Hr by reflexivity.
  split; [exact Hl|]. split; [exact Hr|].
  destruct (selections_most_specific sub sub_refl sub_antisym sub_trans
              sub_chain (_KL_REGISTRY crossed) DerivedP DerivedQ
              DerivedP BaseQ BaseP DerivedQ Hl Hr BaseP DerivedQ)
    as (Hp & _ & Hq & _); [|done].
  rewrite crossed_matches. apply list_elem_of_here.
Defined.

Lemma dispatch_order_irrelevant_witness :
  dispatch_c [((DerivedP, BaseQ), kl_version2); ((BaseP, DerivedQ), kl_version1)]
    DerivedP DerivedQ
  = dispatch_c (_KL_REGISTRY crossed) DerivedP DerivedQ.
Proof.
  apply (dispatch_order_irrelevant sub Classes.__name__ sub_refl sub_antisym
           sub_trans sub_chain).
  - apply perm_swap.
  - apply (bool_decide_unpack _). by vm_compute.
Defined.

Lemma most_specific_rule_wins_witness :
  dispatch_c (_KL_REGISTRY tie_broken) DerivedP DerivedQ
  = Ok (Fun kl_version1, []).
Proof.
  apply (most_specific_rule_wins sub Classes.__name__ sub_antisym
           (_KL_REGISTRY tie_broken) DerivedP DerivedQ DerivedP DerivedQ
           kl_version1); [reflexivity..|].
  intros p q Hin.
  change (matches sub (_KL_REGISTRY tie_broken) DerivedP DerivedQ)
    with [(BaseP, DerivedQ); (DerivedP, BaseQ); (DerivedP, DerivedQ)] in Hin.
  repeat (apply elem_of_cons in Hin as [Hin|Hin];
          [injection Hin as -> ->; split; reflexivity|]).
  by apply elem_of_nil in Hin.
Defined.

Lemma registering_suggestion_resolves_witness :
  dispatch_c (dict_set (_KL_REGISTRY crossed) (DerivedP, DerivedQ) kl_version1)
    DerivedP DerivedQ
  = Ok (Fun kl_version1, []).
Proof.
  apply (registering_suggestion_resolves sub Classes.__name__ sub_refl
           sub_antisym sub_trans sub_chain (_KL_REGISTRY crossed)
           DerivedP DerivedQ DerivedP BaseQ BaseP DerivedQ kl_version1);
    reflexivity.
Defined.

Lemma reregister_same_rule_witness :
  (decorator BaseP DerivedQ kl_version1 crossed).2
  = Engine (_KL_REGISTRY crossed) ∅.
Proof.
  apply (reregister_same_rule sub Classes.__name__ ob_type Returned crossed
           BaseP DerivedQ kl_version1).
  reflexivity.
Defined.

Lemma register_uncovered_query_witness :
  dispatch_c (dict_set (_KL_REGISTRY crossed) (DerivedP, DerivedQ) kl_version1)
    Normal Normal
  = dispatch_c (_KL_REGISTRY crossed) Normal Normal.
Proof.
  apply (register_uncovered_query sub Classes.__name__). reflexivity.
Defined.

Lemma crossed_reachable :
  reachable sub Classes.__name__ ob_type Returned crossed.
Proof.
  exact (reachable_register sub Classes.__name__ ob_type Returned _
           DerivedP BaseQ kl_version2
           (reachable_register sub Classes.__name__ ob_type Returned _
              BaseP DerivedQ kl_version1
              (reachable_init sub Classes.__name__ ob_type Returned))).
Qed.

Lemma reachable_state_invariant_witness :
  NoDup (dict_keys (_KL_REGISTRY crossed)) ∧ coherent_c crossed.
Proof.
  destruct (reachable_state_invariant sub Classes.__name__ ob_type Returned
              crossed crossed_reachable) as (Hnd & Hco & _).
  by split.
Defined.

Lemma Match_le_orders_candidates_witness :
  _Match__le__ sub (Match_ [DerivedP; BaseQ]) (Match_ [BaseP; DerivedQ]) = true ∨
  _Match__le__ sub (Match_ [BaseP; DerivedQ]) (Match_ [DerivedP; BaseQ]) = true.
Proof.
  destruct (Match_le_orders_candidates sub sub_refl sub_antisym sub_trans
              sub_chain) as (_ & _ & _ & Htotal).
  apply (Htotal DerivedP DerivedQ); reflexivity.
Defined.

Lemma kl_divergence_outcome_witness :
  ∃ fn tp tq,
    dict_get (_KL_REGISTRY crossed) (tp, tq) = Some fn ∧
    sub DerivedP tp = true ∧ sub DerivedQ tq = true ∧
    (kl_c (Obj DerivedP 0) (Obj DerivedQ 1) crossed).1.1
      = Ok (Returned fn (Obj DerivedP 0) (Obj DerivedQ 1)).
Proof.
  destruct (kl_divergence_outcome sub Classes.__name__ ob_type Returned
              (Obj DerivedP 0) (Obj DerivedQ 1) crossed
              (empty_memo_coherent _ _ _)) as [[Hnone _]|Hsome].
  - discriminate Hnone.
  - exact Hsome.
Defined.

Lemma registration_keeps_resolved_witness :
  ∃ fn ws,
    dispatch_c (dict_set (_KL_REGISTRY crossed) (Normal, Normal) kl_normal_normal)
      DerivedP DerivedQ
    = Ok (Fun fn, ws).
Proof.
  exact (registration_keeps_resolved sub Classes.__name__
           (_KL_REGISTRY crossed) DerivedP DerivedQ Normal Normal
           kl_version2 kl_normal_normal _ crossed_overrides_resolution).
Defined.

(** ** The catalogue on a flat hierarchy *)

Local Abbreviation flat := Catalog.flat_issubclass.
Local Abbreviation kl_flat :=
  (kl_divergence Catalog.flat_issubclass Catalog.flat_name
     (λ F : Catalog.family, Some F)
     (λ (fn : Catalog.kl_function) (p q : Catalog.family), (fn, p, q))).
Local Abbreviation imported :=
  (Engine (cls := option Catalog.family)
     (Catalog.catalog_registry (λ F : Catalog.family, Some F)) ∅).

Lemma Some_inj_family : ∀ F G : Catalog.family, Some F = Some G → F = G.
Proof. intros F G Heq. by injection Heq. Qed.

Lemma flat_refl : ∀ x, flat x x = true.
Proof. intros [F|]; simpl; [by apply bool_decide_eq_true_2 | done]. Qed.

Lemma flat_antisym : ∀ x y, flat x y = true → flat y x = true → x = y.
Proof.
  intros [F|] [G|]; simpl; intros H1 H2; try done.
  by apply bool_decide_eq_true in H1.
Qed.


Lemma flat_import :
  Catalog.import_kl flat None Catalog.flat_name (λ F, Some F) = Ok imported.
Proof. apply import_kl_state. apply Some_inj_family. Qed.

Lemma import_kl_registers_all_witness :
  Catalog.import_kl flat None Catalog.flat_name (λ F, Some F) = Ok imported.
Proof.
  apply (import_kl_registers_all flat None Catalog.flat_name (λ F, Some F)
           Some_inj_family).
Defined.

Lemma catalog_exact_pair_witness :
  (kl_flat Catalog.Normal Catalog.Gumbel imported).1.1
  = Ok (Catalog._kl_normal_gumbel, Catalog.Normal, Catalog.Gumbel).
Proof.
  apply (catalog_exact_pair flat None Catalog.flat_name (λ F, Some F)
           (λ F, Some F) (λ fn p q, (fn, p, q))
           Some_inj_family flat_refl flat_antisym
           Catalog.Normal Catalog.Gumbel Catalog._kl_normal_gumbel
           Catalog.Normal Catalog.Gumbel imported flat_import);
    reflexivity.
Defined.


